(** * Referral view database (refdb.cpp)

    A shallow embedding of [ReferralsViewDB]: the referral tree store
    (referral records, parent index, children index), the ANV aggregator
    and the lottery reservoir, all persisted in one key-value store. *)

From Stdlib Require Import ZArith NArith QArith Ascii Lia Lqa.
From stdpp Require Import gmap list.

Local Open Scope N_scope.

(** ** Data model *)

(** [Address] is a 160-bit blob and [uint256] a 256-bit blob; both are
    read as unsigned numbers.  [CAmount] is [int64_t]. *)
Definition Address := N.
Definition uint256 := N.
Definition CAmount := Z.

(** [WeightedKey] is a 128-bit float in the source.  The store functions
    only compare keys, so a key is taken as a rational number;
    infinities and NaN are not represented. *)
Definition WeightedKey := Q.

(** A default-constructed [Address] is the all-zero blob. *)
Definition Address_default : Address := 0.

(** [Referral] comes from the referral primitives header; the store reads
    [codeHash], [pubKeyId] and [previousReferral]. *)
Record Referral := mkReferral {
  codeHash : uint256;
  pubKeyId : Address;
  previousReferral : uint256
}.

Definition ChildAddresses := list Address.

(** [ANVTuple] is [std::tuple<char, Address, CAmount>]. *)
Definition ANVTuple := (N * Address * CAmount)%type.

(** A value-initialised [ANVTuple]. *)
Definition ANVTuple_default : ANVTuple := (0, Address_default, 0%Z).

(** [AddressANV], the record handed out by [GetANV] and the scans. *)
Record AddressANV := mkAddressANV {
  address_type : N;
  address : Address;
  anv : CAmount
}.

Definition to_AddressANV (t : ANVTuple) : AddressANV :=
  let '(ty, origin, amount) := t in mkAddressANV ty origin amount.

Definition LotteryHeapValue := (WeightedKey * Address)%type.

Definition INT64_MIN : Z := - 2 ^ 63.
Definition INT64_MAX : Z := 2 ^ 63 - 1.

(** [MAX_LEVELS] is [std::numeric_limits<size_t>::max()] on a 64-bit
    target. *)
Definition MAX_LEVELS : N := 2 ^ 64 - 1.
Definition MAX_RESERVOIR_SIZE : N := 1000.

(** ** The key-value store *)

(** Every key starts with a one-character table tag. *)
Definition DB_CHILDREN : ascii := "c"%char.
Definition DB_REFERRALS : ascii := "r"%char.
Definition DB_REFERRALS_BY_KEY_ID : ascii := "k"%char.
Definition DB_PARENT_KEY : ascii := "p"%char.
Definition DB_ANV : ascii := "a"%char.
Definition DB_LOT_SIZE : ascii := "s"%char.
Definition DB_LOT_VAL : ascii := "v"%char.

(** The keys the store is addressed with: [std::make_pair(tag, payload)],
    or the bare tag for the heap size. *)
Inductive DBKey :=
| K_CHILDREN (a : Address)
| K_REFERRALS (h : uint256)
| K_PARENT_KEY (a : Address)
| K_ANV (a : Address)
| K_LOT_SIZE
| K_LOT_VAL (pos : N).

Definition key_tag (k : DBKey) : ascii :=
  match k with
  | K_CHILDREN _ => DB_CHILDREN
  | K_REFERRALS _ => DB_REFERRALS
  | K_PARENT_KEY _ => DB_PARENT_KEY
  | K_ANV _ => DB_ANV
  | K_LOT_SIZE => DB_LOT_SIZE
  | K_LOT_VAL _ => DB_LOT_VAL
  end.

(** The values, one shape per table. *)
Inductive DBValue :=
| V_children (l : ChildAddresses)
| V_referral (r : Referral)
| V_address (a : Address)
| V_anv (t : ANVTuple)
| V_size (n : N)
| V_lot (v : LotteryHeapValue).

#[global] Instance DBKey_eq_dec : EqDecision DBKey.
Proof. solve_decision. Defined.

Definition DBKey_code (k : DBKey) : N * N :=
  match k with
  | K_CHILDREN a => (0, a)
  | K_REFERRALS h => (1, h)
  | K_PARENT_KEY a => (2, a)
  | K_ANV a => (3, a)
  | K_LOT_SIZE => (4, 0)
  | K_LOT_VAL pos => (5, pos)
  end.

Definition DBKey_decode (c : N * N) : DBKey :=
  match c with
  | (0, a) => K_CHILDREN a
  | (1, h) => K_REFERRALS h
  | (2, a) => K_PARENT_KEY a
  | (3, a) => K_ANV a
  | (4, _) => K_LOT_SIZE
  | (_, pos) => K_LOT_VAL pos
  end.

#[global] Instance DBKey_countable : Countable DBKey.
Proof. by apply (inj_countable' DBKey_code DBKey_decode); intros []. Defined.

(** Modelled from the spec: the store adapter ([CDBWrapper], declared in the
    database wrapper header) is an ordered key-value engine with typed
    read, write, erase, exists and a forward iterator.  Its content is a
    finite map; a typed read misses when the key is absent or the stored
    value has another shape. *)
Abbreviation CDBWrapper := (gmap DBKey DBValue).

Definition m_db_Exists (db : CDBWrapper) (k : DBKey) : bool :=
  bool_decide (is_Some (db !! k)).

Definition m_db_Read_children (db : CDBWrapper) (k : DBKey) : option ChildAddresses :=
  match db !! k with Some (V_children l) => Some l | _ => None end.

Definition m_db_Read_referral (db : CDBWrapper) (k : DBKey) : option Referral :=
  match db !! k with Some (V_referral r) => Some r | _ => None end.

Definition m_db_Read_address (db : CDBWrapper) (k : DBKey) : option Address :=
  match db !! k with Some (V_address a) => Some a | _ => None end.

Definition m_db_Read_anv (db : CDBWrapper) (k : DBKey) : option ANVTuple :=
  match db !! k with Some (V_anv t) => Some t | _ => None end.

Definition m_db_Read_size (db : CDBWrapper) (k : DBKey) : option N :=
  match db !! k with Some (V_size n) => Some n | _ => None end.

Definition m_db_Read_lot (db : CDBWrapper) (k : DBKey) : option LotteryHeapValue :=
  match db !! k with Some (V_lot v) => Some v | _ => None end.

(** The iterator walks all entries of the store, whatever their table.
    The engine's order is that of the serialised keys; the functions below
    take the entries in the order the iterator yields them. *)
Definition NewIterator (db : CDBWrapper) : list (DBKey * DBValue) :=
  map_to_list db.

(** [iter->GetKey(address)] with [address : pair<char, Address>]: the key
    bytes are decoded as a tag and a 160-bit blob.  A referral key is
    longer and gives the first 20 bytes of its hash; the heap keys are
    shorter and fail to decode. *)
Definition GetKey_address (k : DBKey) : option (ascii * Address) :=
  match k with
  | K_CHILDREN a => Some (DB_CHILDREN, a)
  | K_REFERRALS h => Some (DB_REFERRALS, h mod 2 ^ 160)
  | K_PARENT_KEY a => Some (DB_PARENT_KEY, a)
  | K_ANV a => Some (DB_ANV, a)
  | K_LOT_SIZE => None
  | K_LOT_VAL _ => None
  end.

(** [iter->GetValue(anv)] with [anv : ANVTuple]. *)
Definition GetValue_anv (v : DBValue) : option ANVTuple :=
  match v with V_anv t => Some t | _ => None end.

(** ** Outcomes of the mutating operations *)

(** The assertions of the source abort the process.  [SignedOverflow]
    stands for the additions of [CAmount] that the embedding does not
    follow (see [sum_in_reach]). *)
Inductive fatal :=
| NegativeANV
| CycleDetected
| SignedOverflow
| RandPositive.

Inductive outcome (A : Type) :=
| Done (a : A) (db : CDBWrapper)
| Fatal (why : fatal).
Arguments Done {A} a db.
Arguments Fatal {A} why.

Definition M (A : Type) : Type := CDBWrapper → outcome A.

Definition ret {A} (a : A) : M A := λ db, Done a db.

Definition bind {A B} (m : M A) (f : A → M B) : M B :=
  λ db, match m db with
        | Done a db' => f a db'
        | Fatal why => Fatal why
        end.

Definition gets {A} (f : CDBWrapper → A) : M A := λ db, Done (f db) db.

Definition abort {A} (why : fatal) : M A := λ _, Fatal why.

(** [assert(cond)] *)
Definition assert (cond : bool) (why : fatal) : M unit :=
  if cond then ret tt else abort why.

Notation "x <~ m ;; k" := (bind m (λ x, k))
  (at level 100, m at next level, right associativity,
   format "x  <~  m ;;  '/' k").
Notation "m ;;; k" := (bind m (λ _, k))
  (at level 100, right associativity).
(** [if(!op) return false;] *)
Notation "'ensure' m ;; k" :=
  (bind m (λ ok : bool, if ok then k else ret false))
  (at level 100, m at next level, right associativity,
   format "'ensure'  m ;;  '/' k").

(** Loop control: go round again, or leave with a result. *)
Inductive flow (S R : Type) :=
| Continue (s : S)
| Stop (r : R).
Arguments Continue {S R} s.
Arguments Stop {S R} r.

(** [loop_nat n body s] runs [body] at most [n] times.  [Continue s'] as the
    result says that [n] rounds were run and none stopped. *)
Fixpoint loop_nat {S R} (n : nat) (body : S → M (flow S R)) (s : S)
  : M (flow S R) :=
  match n with
  | O => ret (Continue s)
  | Datatypes.S n' =>
      x <~ body s;;
      match x with
      | Continue s' => loop_nat n' body s'
      | Stop r => ret (Stop r)
      end
  end.

(** The same with the bound in binary, so that a bound of [2 ^ 64] can be
    run: [loop_pos p] makes [p] rounds at most. *)
Fixpoint loop_pos {S R} (p : positive) (body : S → M (flow S R)) (s : S)
  : M (flow S R) :=
  match p with
  | xH => body s
  | xO p' =>
      x <~ loop_pos p' body s;;
      match x with
      | Continue s' => loop_pos p' body s'
      | Stop r => ret (Stop r)
      end
  | xI p' =>
      x <~ body s;;
      match x with
      | Continue s' =>
          y <~ loop_pos p' body s';;
          match y with
          | Continue s'' => loop_pos p' body s''
          | Stop r => ret (Stop r)
          end
      | Stop r => ret (Stop r)
      end
  end.

(** How a loop is left: its guard became false in state [s], or the
    function returned [b] from inside the body. *)
Inductive loop_exit (S : Type) :=
| LoopEnd (s : S)
| Return (b : bool).
Arguments LoopEnd {S} s.
Arguments Return {S} b.

(** ** Read-only operations *)

(** A referral is written as a [Referral] and read back as a
    [MutableReferral]; serialisation is taken to give back what was
    written. *)

Definition GetReferral (db : CDBWrapper) (code_hash : uint256) : option Referral :=
  m_db_Read_referral db (K_REFERRALS code_hash).

Definition GetReferrer (db : CDBWrapper) (address : Address) : option Address :=
  m_db_Read_address db (K_PARENT_KEY address).

Definition GetChildren (db : CDBWrapper) (address : Address) : ChildAddresses :=
  default [] (m_db_Read_children db (K_CHILDREN address)).

Definition ReferralCodeExists (db : CDBWrapper) (code_hash : uint256) : bool :=
  m_db_Exists db (K_REFERRALS code_hash).

Definition WalletIdExists (db : CDBWrapper) (address : Address) : bool :=
  m_db_Exists db (K_PARENT_KEY address).

Definition GetANV (db : CDBWrapper) (address : Address) : option AddressANV :=
  to_AddressANV <$> m_db_Read_anv db (K_ANV address).

Definition GetLotteryHeapSize (db : CDBWrapper) : N :=
  default 0 (m_db_Read_size db K_LOT_SIZE).

(** The two scans.  Each round of the [while(iter->Valid())] loop looks at
    one entry and either skips it or pushes one record. *)
Fixpoint GetAllANVs_scan (iter : list (DBKey * DBValue)) : list AddressANV :=
  match iter with
  | [] => []
  | (k, v) :: rest =>
      match GetKey_address k with
      | None => GetAllANVs_scan rest
      | Some (tag, _) =>
          if negb (Ascii.eqb tag DB_ANV) then GetAllANVs_scan rest
          else match GetValue_anv v with
               | None => GetAllANVs_scan rest
               | Some (ty, origin, amount) =>
                   mkAddressANV ty origin amount :: GetAllANVs_scan rest
               end
      end
  end.

Definition GetAllANVs (db : CDBWrapper) : list AddressANV :=
  GetAllANVs_scan (NewIterator db).

Fixpoint GetAllRewardableANVs_scan (iter : list (DBKey * DBValue))
  : list AddressANV :=
  match iter with
  | [] => []
  | (k, v) :: rest =>
      match GetKey_address k with
      | None => GetAllRewardableANVs_scan rest
      | Some (tag, _) =>
          if negb (Ascii.eqb tag DB_ANV) then GetAllRewardableANVs_scan rest
          else match GetValue_anv v with
               | None => GetAllRewardableANVs_scan rest
               | Some (addressType, origin, amount) =>
                   if negb (addressType =? 1) && negb (addressType =? 2)
                   then GetAllRewardableANVs_scan rest
                   else mkAddressANV addressType origin amount
                          :: GetAllRewardableANVs_scan rest
               end
      end
  end.

Definition GetAllRewardableANVs (db : CDBWrapper) : list AddressANV :=
  GetAllRewardableANVs_scan (NewIterator db).

(** [key > parent_value.first] *)
Definition key_gt (a b : WeightedKey) : bool := negb (Qle_bool a b).

(** The position the sift loop compares with. *)
Definition parent_pos (pos : N) : N :=
  if pos mod 2 =? 0 then N.shiftr pos 2 else N.shiftr (pos - 1) 2.

Definition in_int64 (z : Z) : bool :=
  ((INT64_MIN <=? z) && (z <=? INT64_MAX))%Z.

(** [CAmount] is [int64_t] and the source adds without a test: a sum
    that does not fit comes back reduced modulo [2 ^ 64] into the range
    of [int64_t]. *)
Definition wrap_int64 (z : Z) : Z :=
  ((z - INT64_MIN) mod 2 ^ 64 + INT64_MIN)%Z.

(** The sums the embedding follows: those of a stored amount in
    [0 .. INT64_MAX], which is all [UpdateANV] ever writes, and a change
    that fits [int64_t].  A sum beyond them needs a stored amount below
    zero or operands that are no [int64_t]; it is reported as
    [SignedOverflow] and no statement is made about it
    ([UpdateANV_in_reach]: no call gets there from amounts in
    [0 .. INT64_MAX]). *)
Definition sum_in_reach (z : Z) : bool :=
  ((INT64_MIN <=? z) && (z <=? 2 * INT64_MAX))%Z.

(** What [InsertReferral] and [RemoveReferral] leave in [parent_address]:
    the [pubKeyId] of the referral named by [previousReferral], or a
    default-constructed address when that lookup misses. *)
Definition parent_address_of (db : CDBWrapper) (referral : Referral) : Address :=
  match GetReferral db (previousReferral referral) with
  | Some parent_referral => pubKeyId parent_referral
  | None => Address_default
  end.

(** ** Mutating operations *)

Section ReferralsViewDB.

(** Whether the engine carries out a write or an erase of key [k] when
    the store holds [db]; a refused operation leaves the store as it
    is and makes the call return [false]. *)
Variable io_ok : CDBWrapper → DBKey → bool.

Definition m_db_Write (k : DBKey) (v : DBValue) : M bool :=
  λ db, if io_ok db k then Done true (<[k:=v]> db) else Done false db.

Definition m_db_Erase (k : DBKey) : M bool :=
  λ db, if io_ok db k then Done true (delete k db) else Done false db.

Definition InsertReferral (referral : Referral) : M bool :=
  ensure m_db_Write (K_REFERRALS (codeHash referral)) (V_referral referral);;
  parent_address <~ gets (λ db, parent_address_of db referral);;
  ensure m_db_Write (K_PARENT_KEY (pubKeyId referral)) (V_address parent_address);;
  children <~ gets (λ db, GetChildren db parent_address);;
  ensure m_db_Write (K_CHILDREN parent_address)
                    (V_children (children ++ [pubKeyId referral]));;
  ret true.

Definition RemoveReferral (referral : Referral) : M bool :=
  ensure m_db_Erase (K_REFERRALS (codeHash referral));;
  parent_address <~ gets (λ db, parent_address_of db referral);;
  ensure m_db_Erase (K_PARENT_KEY (pubKeyId referral));;
  children <~ gets (λ db, GetChildren db parent_address);;
  ensure m_db_Write (K_CHILDREN parent_address)
                    (V_children (filter (λ c, c ≠ pubKeyId referral) children));;
  ret true.

(** One evaluation of the guard of the loop of [UpdateANV], followed by
    its body when the guard holds.  The state is [(address, levels)].
    The sum is taken as [int64_t] takes it, so one that passes
    [INT64_MAX] is below zero when the assertion looks at it. *)
Definition UpdateANV_round (addressType : N) (start_address : Address)
    (change : CAmount) (st : option Address * N)
  : M (flow (option Address * N) (loop_exit (option Address * N))) :=
  match st with
  | (Some a, levels) =>
      if levels <? MAX_LEVELS then
        anv <~ gets (λ db, default ANVTuple_default (m_db_Read_anv db (K_ANV a)));;
        let '(ty, origin, amount) :=
          if levels =? 0 then (addressType, start_address, anv.2) else anv in
        assert (sum_in_reach (amount + change)) SignedOverflow;;;
        let amount' := wrap_int64 (amount + change) in
        assert (0 <=? amount')%Z NegativeANV;;;
        ok <~ m_db_Write (K_ANV a) (V_anv (ty, origin, amount'));;
        if ok then
          parent <~ gets (λ db, GetReferrer db a);;
          ret (Continue (parent, levels + 1))
        else ret (Stop (Return false))
      else ret (Stop (LoopEnd st))
  | (None, _) => ret (Stop (LoopEnd st))
  end.

(** [levels] counts the rounds and the guard asks for
    [levels < MAX_LEVELS], so the guard is evaluated [MAX_LEVELS + 1]
    times at most and the last branch below is never taken
    ([UpdateANV_loop_ends]). *)
Definition UpdateANV (addressType : N) (start_address : Address)
    (change : CAmount) : M bool :=
  x <~ loop_pos (2 ^ 64)%positive
         (UpdateANV_round addressType start_address change)
         (Some start_address, 0);;
  match x with
  | Stop (Return b) => ret b
  | Stop (LoopEnd (_, levels)) =>
      assert (levels <? MAX_LEVELS) CycleDetected;;;
      ret true
  | Continue _ => abort CycleDetected
  end.

(** One evaluation of the guard [pos != 0] of the sift loop of
    [InsertLotteryAddress], followed by its body. *)
Definition InsertLotteryAddress_round (key : WeightedKey) (pos : N)
  : M (flow N (loop_exit N)) :=
  if pos =? 0 then ret (Stop (LoopEnd pos))
  else
    let parent_pos := parent_pos pos in
    r <~ gets (λ db, m_db_Read_lot db (K_LOT_VAL parent_pos));;
    match r with
    | None => ret (Stop (Return false))
    | Some parent_value =>
        if key_gt key parent_value.1 then ret (Stop (LoopEnd pos))
        else
          ok <~ m_db_Write (K_LOT_VAL pos) (V_lot parent_value);;
          if ok then ret (Continue parent_pos)
          else ret (Stop (Return false))
    end.

(** [pos] is below [MAX_RESERVOIR_SIZE] and every round makes it smaller,
    so 1000 evaluations of the guard are enough and the last branch is
    never taken ([InsertLotteryAddress_loop_ends]). *)
Definition InsertLotteryAddress (key : WeightedKey) (address : Address)
  : M bool :=
  pos <~ gets GetLotteryHeapSize;;
  if MAX_RESERVOIR_SIZE <=? pos then ret false
  else
    ensure m_db_Write K_LOT_SIZE (V_size (pos + 1));;
    x <~ loop_pos 1000%positive (InsertLotteryAddress_round key) pos;;
    match x with
    | Stop (Return b) => ret b
    | Stop (LoopEnd pos) =>
        ensure m_db_Write (K_LOT_VAL pos) (V_lot (key, address));;
        ret true
    | Continue _ => ret false
    end.

(** [std::log] applied to a 64-bit unsigned integer. *)
Variable flog : N → Q.

Definition LOG_MAX_UINT64 : Q := flog (2 ^ 64 - 1).

(** The weighted key and the heap size are computed and then not used:
    the admission step is a comment in the source. *)
Definition AddAddressToLottery (rand_value : uint256) (address : Address)
  : M bool :=
  maybe_anv <~ gets (λ db, GetANV db address);;
  match maybe_anv with
  | None => ret false
  | Some a =>
      let rand_uint64 := rand_value mod 2 ^ 64 in
      let rand := (flog rand_uint64 - LOG_MAX_UINT64)%Q in
      assert (Qle_bool rand 0) RandPositive;;;
      let anv_f := inject_Z (anv a) in
      let weighted_key := (rand / anv_f)%Q in
      heap_size <~ gets GetLotteryHeapSize;;
      ret true
  end.

End ReferralsViewDB.

(** The bounded loops are run by [vm_compute], not unrolled by [simpl]. *)
Arguments UpdateANV : simpl never.
Arguments InsertLotteryAddress : simpl never.

(** ** Vocabulary of the properties *)

(** The address types eligible for reward distribution. *)
Definition rewardable (r : AddressANV) : Prop :=
  address_type r = 1 ∨ address_type r = 2.

#[global] Instance rewardable_dec r : Decision (rewardable r).
Proof. unfold rewardable. apply _. Defined.

(** The engine that carries out every operation. *)
Definition io_always : CDBWrapper → DBKey → bool := λ _ _, true.

(** [r] has no descendants in [db]: no stored referral names the code hash
    of [r] as its previous referral, and [r] does not name itself. *)
Definition no_descendants (db : CDBWrapper) (r : Referral) : Prop :=
  previousReferral r ≠ codeHash r ∧
  ∀ h c, GetReferral db h = Some c → previousReferral c ≠ codeHash r.

(** The address occurs in no children list of [db]. *)
Definition in_no_children_list (db : CDBWrapper) (a : Address) : Prop :=
  ∀ x, a ∉ GetChildren db x.

(** The three reads of the removal property give in [db2] what they gave
    in [db]. *)
Definition reads_restored (db db2 : CDBWrapper) (r : Referral)
    (parent : Address) : Prop :=
  GetReferral db2 (codeHash r) = GetReferral db (codeHash r) ∧
  GetReferrer db2 (pubKeyId r) = GetReferrer db (pubKeyId r) ∧
  GetChildren db2 parent = GetChildren db parent.

(** A small store: the referral of a root (address 1, code hash 100), fully
    inserted. *)
Definition example_root : Referral := mkReferral 100 1 0.

Definition example_db_root : CDBWrapper :=
  <[K_CHILDREN 0 := V_children [1]]>
    (<[K_PARENT_KEY 1 := V_address 0]>
       (<[K_REFERRALS 100 := V_referral example_root]> ∅)).

(** The same after the insertion of a referral invited by the root
    (address 2, code hash 101). *)
Definition example_child : Referral := mkReferral 101 2 100.

Definition example_db_child : CDBWrapper :=
  <[K_CHILDREN 1 := V_children [2]]>
    (<[K_PARENT_KEY 2 := V_address 1]>
       (<[K_REFERRALS 101 := V_referral example_child]> example_db_root)).

(** The proper ancestors of an address, nearest first: the addresses
    [GetReferrer] leads through until it misses.  An address has such a list
    exactly when its ancestor chain is free of cycles. *)
Inductive referrer_chain (db : CDBWrapper) : Address → list Address → Prop :=
| chain_root a :
    GetReferrer db a = None → referrer_chain db a []
| chain_step a p xs :
    GetReferrer db a = Some p → referrer_chain db p xs →
    referrer_chain db a (p :: xs).

(** The ANV record [UpdateANV] works on: the stored one, or a
    value-initialised tuple. *)
Definition anv_record (db : CDBWrapper) (x : Address) : ANVTuple :=
  default ANVTuple_default (m_db_Read_anv db (K_ANV x)).

Definition stored_amount (db : CDBWrapper) (x : Address) : CAmount :=
  (anv_record db x).2.

(** A sequence of [UpdateANV] calls, run for as long as the calls return
    [true]. *)
Fixpoint UpdateANV_seq (io_ok : CDBWrapper → DBKey → bool)
    (calls : list (N * Address * CAmount)) : M bool :=
  match calls with
  | [] => ret true
  | (addressType, a, change) :: rest =>
      ok <~ UpdateANV io_ok addressType a change;;
      if ok then UpdateANV_seq io_ok rest else ret false
  end.

(** The account a caller keeps of what it credited: one total per address,
    to which a call adds its change at the start address and at each of
    its ancestors. *)
Definition credit (touched : list Address) (change : Z) (total : Address → Z)
  : Address → Z :=
  λ x, if decide (x ∈ touched) then (total x + change)%Z else total x.

(** The addresses a call touches, in the order of its rounds: the start
    address and then what [GetReferrer] leads through, [n] of them at
    most.  On a chain free of cycles these are the start address and its
    ancestors, once each. *)
Fixpoint visited (db : CDBWrapper) (n : nat) (a : option Address)
  : list Address :=
  match a with
  | None => []
  | Some x =>
      match n with
      | O => []
      | S n' => x :: visited db n' (GetReferrer db x)
      end
  end.

(** The running total stays at or above zero at every touch. *)
Fixpoint touches_ok (total : Address → Z) (touched : list Address)
    (change : Z) : Prop :=
  match touched with
  | [] => True
  | x :: rest =>
      (0 ≤ total x + change)%Z ∧ touches_ok (credit [x] change total) rest change
  end.

(** The running totals stay at or above zero at every address every call
    of the sequence touches.  A call makes [MAX_LEVELS] rounds at most;
    the totals it leaves count for the next call when it went through a
    chain that ends. *)
Fixpoint running_totals_ok (db : CDBWrapper) (total : Address → Z)
    (calls : list (N * Address * CAmount)) : Prop :=
  match calls with
  | [] => True
  | (_, a, change) :: rest =>
      (∀ n, N.of_nat n ≤ MAX_LEVELS →
            touches_ok total (visited db n (Some a)) change) ∧
      (∀ xs, referrer_chain db a xs →
             running_totals_ok db (credit (a :: xs) change total) rest)
  end.

(** The running total stays at or above zero and within [CAmount] at
    every touch. *)
Fixpoint touches_in_range (total : Address → Z) (touched : list Address)
    (change : Z) : Prop :=
  match touched with
  | [] => True
  | x :: rest =>
      (0 ≤ total x + change ≤ INT64_MAX)%Z ∧
      touches_in_range (credit [x] change total) rest change
  end.

(** [running_totals_ok] with the totals kept within [CAmount] as well. *)
Fixpoint running_totals_in_range (db : CDBWrapper) (total : Address → Z)
    (calls : list (N * Address * CAmount)) : Prop :=
  match calls with
  | [] => True
  | (_, a, change) :: rest =>
      (∀ n, N.of_nat n ≤ MAX_LEVELS →
            touches_in_range total (visited db n (Some a)) change) ∧
      (∀ xs, referrer_chain db a xs →
             running_totals_in_range db (credit (a :: xs) change total) rest)
  end.

(** A store whose one record holds the largest [CAmount]. *)
Definition example_db_full : CDBWrapper :=
  <[K_ANV 5 := V_anv (1, 5, INT64_MAX)]> ∅.

(** The amounts that pass the assertion of [UpdateANV]: at or above
    zero once stored as [int64_t]. *)
Definition fits_nonneg (z : Z) : bool :=
  ((0 <=? z) && (z <=? INT64_MAX))%Z.

(** What one round of [UpdateANV] writes over the record [t]: the first
    round stamps type and origin, every round adds the change. *)
Definition new_record (addressType : N) (start_address : Address)
    (change : CAmount) (levels : N) (t : ANVTuple) : ANVTuple :=
  if levels =? 0 then (addressType, start_address, (t.2 + change)%Z)
  else (t.1.1, t.1.2, (t.2 + change)%Z).

(** The store after [UpdateANV io_always 1 2 100] on [example_db_child]:
    address 2 and its ancestors 1 and 0 each hold 100. *)
Definition example_db_anv : CDBWrapper :=
  <[K_ANV 0 := V_anv (0, 0, 100%Z)]>
    (<[K_ANV 1 := V_anv (0, 0, 100%Z)]>
       (<[K_ANV 2 := V_anv (1, 2, 100%Z)]> example_db_child)).

(** The entry persisted at a heap position. *)
Definition GetLotterySlot (db : CDBWrapper) (pos : N) : option LotteryHeapValue :=
  m_db_Read_lot db (K_LOT_VAL pos).

(** A sequence of [InsertLotteryAddress] calls, run for as long as the
    calls return [true]. *)
Fixpoint InsertLotteryAddress_seq (io_ok : CDBWrapper → DBKey → bool)
    (entries : list LotteryHeapValue) : M bool :=
  match entries with
  | [] => ret true
  | (key, a) :: rest =>
      ok <~ InsertLotteryAddress io_ok key a;;
      if ok then InsertLotteryAddress_seq io_ok rest else ret false
  end.

(** The parent of the 0-based binary heap, as the specification has it. *)
Definition binary_parent (child : N) : N := (child - 1) / 2.

(** The min-heap order of the specification: below the heap size, the key
    at the binary parent of a position is at most the key at the
    position. *)
Definition min_heap_order (db : CDBWrapper) : Prop :=
  ∀ p parent_value value,
    0 < p < GetLotteryHeapSize db →
    GetLotterySlot db (binary_parent p) = Some parent_value →
    GetLotterySlot db p = Some value →
    (parent_value.1 <= value.1)%Q.

(** The sift of the specification: compare with the binary parent, stop
    when the parent's key is not greater than the new key. *)
Definition InsertLotteryAddress_round_spec (io_ok : CDBWrapper → DBKey → bool)
    (key : WeightedKey) (pos : N) : M (flow N (loop_exit N)) :=
  if pos =? 0 then ret (Stop (LoopEnd pos))
  else
    r <~ gets (λ db, GetLotterySlot db (binary_parent pos));;
    match r with
    | None => ret (Stop (Return false))
    | Some parent_value =>
        if Qle_bool parent_value.1 key then ret (Stop (LoopEnd pos))
        else
          ok <~ m_db_Write io_ok (K_LOT_VAL pos) (V_lot parent_value);;
          if ok then ret (Continue (binary_parent pos))
          else ret (Stop (Return false))
    end.

Definition InsertLotteryAddress_spec (io_ok : CDBWrapper → DBKey → bool)
    (key : WeightedKey) (a : Address) : M bool :=
  pos <~ gets GetLotteryHeapSize;;
  if MAX_RESERVOIR_SIZE <=? pos then ret false
  else
    ensure m_db_Write io_ok K_LOT_SIZE (V_size (pos + 1));;
    x <~ loop_pos 1000%positive (InsertLotteryAddress_round_spec io_ok key) pos;;
    match x with
    | Stop (Return b) => ret b
    | Stop (LoopEnd pos) =>
        ensure m_db_Write io_ok (K_LOT_VAL pos) (V_lot (key, a));;
        ret true
    | Continue _ => ret false
    end.

(** The positions the sift loop of the source walks through from [pos]:
    [climb pos i] is where it stands after [i] rounds. *)
Definition climb (pos : N) (i : nat) : N := Nat.iter i parent_pos pos.

(** Every position below the heap size holds an entry. *)
Definition heap_filled (db : CDBWrapper) : Prop :=
  ∀ p, p < GetLotteryHeapSize db → is_Some (GetLotterySlot db p).

(** The order the sift loop of the source works with: below the heap
    size, the key at the position the loop takes as parent is at most the
    key at the position. *)
Definition sift_order (db : CDBWrapper) : Prop :=
  ∀ p parent_value value,
    0 < p < GetLotteryHeapSize db →
    GetLotterySlot db (parent_pos p) = Some parent_value →
    GetLotterySlot db p = Some value →
    (parent_value.1 <= value.1)%Q.

(** The entry is stored at some position below the heap size. *)
Definition in_heap (db : CDBWrapper) (e : LotteryHeapValue) : Prop :=
  ∃ p, p < GetLotteryHeapSize db ∧ GetLotterySlot db p = Some e.

(** The entry under key [k] after a successful [UpdateANV] with the given
    arguments on [db], when [xs] are the proper ancestors of the start
    address: the record of the start address is stamped and credited, the
    records of the ancestors are credited, every other entry is the one
    of [db]. *)
Definition entry_after_UpdateANV (addressType : N) (a : Address)
    (change : CAmount) (xs : list Address) (db : CDBWrapper) (k : DBKey)
  : option DBValue :=
  match k with
  | K_ANV x =>
      if decide (x = a) then
        Some (V_anv (addressType, a, (stored_amount db x + change)%Z))
      else if decide (x ∈ xs) then
        Some (V_anv ((anv_record db x).1.1, (anv_record db x).1.2,
                     (stored_amount db x + change)%Z))
      else db !! k
  | _ => db !! k
  end.

(** * Properties *)

(** Proof steps shared by the store lemmas: unfold the typed reads and
    rewrite lookups through inserts and deletes. *)
Ltac unfold_reads :=
  unfold GetReferral, GetReferrer, GetChildren, GetANV, GetLotteryHeapSize,
    WalletIdExists, ReferralCodeExists, m_db_Exists,
    m_db_Read_referral, m_db_Read_address, m_db_Read_children,
    m_db_Read_anv, m_db_Read_size, m_db_Read_lot.

Ltac map_reads :=
  unfold_reads;
  repeat first
    [ rewrite lookup_insert_eq
    | rewrite lookup_delete_eq
    | rewrite lookup_insert_ne by (done || congruence)
    | rewrite lookup_delete_ne by (done || congruence) ].

Ltac run_op :=
  unfold bind, gets, ret, m_db_Write, m_db_Erase in *;
  repeat match goal with
         | H : context [if ?io ?db ?k then _ else _] |- _ =>
             destruct (io db k); simpl in H; try discriminate H
         end.

(** ** Bounded loops *)

Lemma loop_nat_add {S R} (body : S → M (flow S R)) n m s db :
  loop_nat (n + m) body s db =
  match loop_nat n body s db with
  | Done (Continue s') db' => loop_nat m body s' db'
  | Done (Stop r) db' => Done (Stop r) db'
  | Fatal why => Fatal why
  end.
Proof.
  revert s db. induction n as [|n IH]; intros s db; simpl; [done|].
  unfold bind. destruct (body s db) as [[s'|r] db'|why]; simpl; auto.
Qed.

Lemma loop_nat_S {S R} (body : S → M (flow S R)) n s db :
  loop_nat (Datatypes.S n) body s db =
  match body s db with
  | Done (Continue s') db' => loop_nat n body s' db'
  | Done (Stop r) db' => Done (Stop r) db'
  | Fatal why => Fatal why
  end.
Proof.
  simpl. unfold bind. destruct (body s db) as [[s'|r] db'|why]; done.
Qed.

Lemma loop_pos_nat {S R} (body : S → M (flow S R)) p s db :
  loop_pos p body s db = loop_nat (Pos.to_nat p) body s db.
Proof.
  revert s db. induction p as [p IH|p IH|]; intros s db.
  - rewrite Pos2Nat.inj_xI. simpl. unfold bind.
    destruct (body s db) as [[s'|r] db'|why]; simpl; auto.
    rewrite Nat.add_0_r, loop_nat_add, <- IH.
    destruct (loop_pos p body s' db') as [[s''|r] db''|why]; simpl; auto.
  - rewrite Pos2Nat.inj_xO. simpl. unfold bind.
    rewrite Nat.add_0_r, loop_nat_add, <- IH.
    destruct (loop_pos p body s db) as [[s''|r] db''|why]; simpl; auto.
  - simpl. unfold bind. destruct (body s db) as [[s'|r] db'|why]; auto.
Qed.

(** ** Scans *)

Lemma GetAllRewardableANVs_scan_filter iter :
  GetAllRewardableANVs_scan iter = filter rewardable (GetAllANVs_scan iter).
Proof.
  induction iter as [|[k v] rest IH]; simpl; [done|].
  destruct (GetKey_address k) as [[tag a]|]; [|done].
  destruct (negb (Ascii.eqb tag DB_ANV)); [done|].
  destruct (GetValue_anv v) as [[[ty origin] amount]|]; [|done].
  rewrite filter_cons, IH.
  destruct (decide (rewardable (mkAddressANV ty origin amount))) as [Hr|Hr];
    unfold rewardable in Hr; simpl in Hr.
  - destruct Hr as [->| ->]; done.
  - destruct (N.eqb_spec ty 1); [tauto|].
    destruct (N.eqb_spec ty 2); [tauto|]. done.
Qed.

(** C8: [GetAllRewardableANVs] returns the records of [GetAllANVs] whose
    stored address type is 1 or 2, in the order of the scan, and nothing
    else. *)
Theorem GetAllRewardableANVs_is_filter (db : CDBWrapper) :
  GetAllRewardableANVs db = filter rewardable (GetAllANVs db).
Proof. apply GetAllRewardableANVs_scan_filter. Qed.

(** ** Referral tree store *)

Lemma InsertReferral_success io r db db' :
  InsertReferral io r db = Done true db' →
  let db1 := <[K_REFERRALS (codeHash r) := V_referral r]> db in
  let pa := parent_address_of db1 r in
  db' = <[K_CHILDREN pa := V_children (GetChildren db pa ++ [pubKeyId r])]>
          (<[K_PARENT_KEY (pubKeyId r) := V_address pa]> db1).
Proof.
  intros H. unfold InsertReferral in H. run_op.
  injection H as <-. simpl. f_equal. f_equal. f_equal. by map_reads.
Qed.

Lemma RemoveReferral_success io r db db' :
  RemoveReferral io r db = Done true db' →
  let db1 := delete (K_REFERRALS (codeHash r)) db in
  let pa := parent_address_of db1 r in
  db' = <[K_CHILDREN pa :=
            V_children (filter (λ c, c ≠ pubKeyId r) (GetChildren db pa))]>
          (delete (K_PARENT_KEY (pubKeyId r)) db1).
Proof.
  intros H. unfold RemoveReferral in H. run_op.
  injection H as <-. simpl. f_equal. f_equal. f_equal. by map_reads.
Qed.

(** Writes outside the referral table leave [parent_address_of] alone. *)
Lemma parent_address_of_ext db1 db2 r :
  (∀ h, GetReferral db2 h = GetReferral db1 h) →
  parent_address_of db2 r = parent_address_of db1 r.
Proof. intros H. unfold parent_address_of. by rewrite H. Qed.

(** What the read operations give after a successful insertion, in terms
    of the store [db1] in which the parent is looked up. *)
Lemma InsertReferral_reads io r db db' :
  InsertReferral io r db = Done true db' →
  let db1 := <[K_REFERRALS (codeHash r) := V_referral r]> db in
  let pa := parent_address_of db1 r in
  (∀ h, GetReferral db' h = GetReferral db1 h) ∧
  GetReferral db' (codeHash r) = Some r ∧
  db' !! K_PARENT_KEY (pubKeyId r) = Some (V_address pa) ∧
  GetChildren db' pa = GetChildren db pa ++ [pubKeyId r].
Proof.
  intros H. apply InsertReferral_success in H. simpl in *. subst db'.
  repeat split; intros; by map_reads.
Qed.

(** C5: after a successful [InsertReferral r], [GetReferral] at the code
    hash of [r] gives [r]; and when the previous referral of [r] names a
    stored referral [p], [GetReferrer] at the address of [r] gives the
    address of [p], and the address of [r] is among the children of [p]. *)
Theorem InsertReferral_postcondition io (r : Referral) (db db' : CDBWrapper) :
  InsertReferral io r db = Done true db' →
  GetReferral db' (codeHash r) = Some r ∧
  ∀ p, GetReferral db' (previousReferral r) = Some p →
       GetReferrer db' (pubKeyId r) = Some (pubKeyId p) ∧
       pubKeyId r ∈ GetChildren db' (pubKeyId p).
Proof.
  intros H. apply InsertReferral_reads in H. simpl in H.
  destruct H as (Hsame & Hr & Hpk & Hch). split; [done|].
  intros p Hp. rewrite Hsame in Hp.
  unfold parent_address_of in Hpk, Hch. rewrite Hp in Hpk, Hch.
  split.
  - unfold GetReferrer, m_db_Read_address. by rewrite Hpk.
  - rewrite Hch. apply elem_of_app. right. by apply list_elem_of_singleton.
Qed.

(** The same with the parent looked up before the insertion, for a
    referral that does not name itself. *)
Lemma InsertReferral_parent_before io (r p : Referral) (db db' : CDBWrapper) :
  InsertReferral io r db = Done true db' →
  previousReferral r ≠ codeHash r →
  GetReferral db (previousReferral r) = Some p →
  GetReferrer db' (pubKeyId r) = Some (pubKeyId p) ∧
  pubKeyId r ∈ GetChildren db' (pubKeyId p).
Proof.
  intros H Hne Hp. apply InsertReferral_reads in H. simpl in H.
  destruct H as (_ & _ & Hpk & Hch).
  assert (Hp1 : GetReferral (<[K_REFERRALS (codeHash r) := V_referral r]> db)
                  (previousReferral r) = Some p).
  { revert Hp. by map_reads. }
  unfold parent_address_of in Hpk, Hch. rewrite Hp1 in Hpk, Hch.
  split.
  - unfold GetReferrer, m_db_Read_address. by rewrite Hpk.
  - rewrite Hch. apply elem_of_app. right. by apply list_elem_of_singleton.
Qed.

(** C10: after a successful [InsertReferral r] whose previous referral
    names no stored referral, [GetReferrer] at the address of [r] gives the
    default-constructed address and not an empty result, [WalletIdExists]
    holds for it, and the address is appended to the children of the
    default-constructed address; a second referral inserted the same way
    lands in the same children list. *)
Theorem InsertReferral_root_sentinel io (r : Referral) (db db' : CDBWrapper) :
  InsertReferral io r db = Done true db' →
  GetReferral db' (previousReferral r) = None →
  GetReferrer db' (pubKeyId r) = Some Address_default ∧
  WalletIdExists db' (pubKeyId r) = true ∧
  GetChildren db' Address_default
    = GetChildren db Address_default ++ [pubKeyId r] ∧
  ∀ r2 db2,
    InsertReferral io r2 db' = Done true db2 →
    GetReferral db2 (previousReferral r2) = None →
    GetReferrer db2 (pubKeyId r) = Some Address_default ∧
    GetReferrer db2 (pubKeyId r2) = Some Address_default ∧
    GetChildren db2 Address_default
      = GetChildren db Address_default ++ [pubKeyId r; pubKeyId r2].
Proof.
  assert (Hone : ∀ r db db',
    InsertReferral io r db = Done true db' →
    GetReferral db' (previousReferral r) = None →
    db' !! K_PARENT_KEY (pubKeyId r) = Some (V_address Address_default) ∧
    GetChildren db' Address_default
      = GetChildren db Address_default ++ [pubKeyId r] ∧
    ∀ a, a ≠ pubKeyId r →
         db' !! K_PARENT_KEY a = db !! K_PARENT_KEY a).
  { clear. intros r db db' H Hnone.
    pose proof (InsertReferral_success _ _ _ _ H) as Heq.
    apply InsertReferral_reads in H. simpl in H, Heq.
    destruct H as (Hsame & _ & Hpk & Hch).
    rewrite Hsame in Hnone.
    unfold parent_address_of in Hpk, Hch, Heq. rewrite Hnone in Hpk, Hch, Heq.
    repeat split; [done..|].
    intros a Ha. rewrite Heq. by map_reads. }
  intros H Hnone. destruct (Hone _ _ _ H Hnone) as (Hpk & Hch & _).
  split; [|split; [|split]].
  - unfold GetReferrer, m_db_Read_address. by rewrite Hpk.
  - unfold WalletIdExists, m_db_Exists. rewrite Hpk. by apply bool_decide_eq_true.
  - done.
  - intros r2 db2 H2 Hnone2.
    destruct (Hone _ _ _ H2 Hnone2) as (Hpk2 & Hch2 & Hother).
    split; [|split].
    + unfold GetReferrer, m_db_Read_address.
      destruct (decide (pubKeyId r = pubKeyId r2)) as [->|Hne].
      * by rewrite Hpk2.
      * by rewrite Hother, Hpk.
    + unfold GetReferrer, m_db_Read_address. by rewrite Hpk2.
    + rewrite Hch2, Hch, <- app_assoc. done.
Qed.

Lemma InsertReferral_postcondition_witness :
  GetReferral example_db_child (codeHash example_child) = Some example_child ∧
  ∀ p, GetReferral example_db_child (previousReferral example_child) = Some p →
       GetReferrer example_db_child (pubKeyId example_child) = Some (pubKeyId p) ∧
       pubKeyId example_child ∈ GetChildren example_db_child (pubKeyId p).
Proof.
  apply (InsertReferral_postcondition io_always example_child example_db_root).
  vm_compute. reflexivity.
Defined.

Lemma InsertReferral_root_sentinel_witness :
  GetReferrer example_db_root 1 = Some Address_default ∧
  WalletIdExists example_db_root 1 = true ∧
  GetChildren example_db_root Address_default
    = GetChildren ∅ Address_default ++ [1] ∧
  ∀ r2 db2,
    InsertReferral io_always r2 example_db_root = Done true db2 →
    GetReferral db2 (previousReferral r2) = None →
    GetReferrer db2 1 = Some Address_default ∧
    GetReferrer db2 (pubKeyId r2) = Some Address_default ∧
    GetChildren db2 Address_default
      = GetChildren ∅ Address_default ++ [1; pubKeyId r2].
Proof.
  apply (InsertReferral_root_sentinel io_always example_root ∅ example_db_root).
  - vm_compute. reflexivity.
  - vm_compute. reflexivity.
Defined.

Lemma filter_all {A} (P : A → Prop) `{∀ x, Decision (P x)} (l : list A) :
  (∀ x, x ∈ l → P x) → filter P l = l.
Proof.
  induction l as [|x l IH]; intros Hl; [done|].
  rewrite filter_cons, decide_True by (apply Hl; left).
  f_equal. apply IH. intros y Hy. apply Hl. by right.
Qed.

Lemma filter_remove_appended (pk : Address) (l : list Address) :
  pk ∉ l → filter (λ c, c ≠ pk) (l ++ [pk]) = l.
Proof.
  intros Hpk. rewrite filter_app, filter_cons, decide_False by (intros ?; done).
  rewrite filter_nil, app_nil_r. apply filter_all. intros x Hx ->. done.
Qed.

(** The store a refused parent-index write leaves behind: the referral
    record is there, the two indices are not. *)
Remark InsertReferral_partial_failure :
  let r := mkReferral 7 1 0 in
  InsertReferral (λ _ k, bool_decide (k ≠ K_PARENT_KEY 1)) r ∅
  = Done false (<[K_REFERRALS 7 := V_referral r]> ∅).
Proof. vm_compute. reflexivity. Qed.

(** C6, as stated, fails: the referral is already stored under its code
    hash (left there by an insertion whose second write was refused), its
    address is in no children list and it has no descendants; inserting
    it again and removing it leaves [GetReferral] empty where it gave the
    referral before. *)
Lemma RemoveReferral_not_inverse_when_stored :
  let r := mkReferral 7 1 0 in
  let db : CDBWrapper := <[K_REFERRALS 7 := V_referral r]> ∅ in
  no_descendants db r ∧ in_no_children_list db (pubKeyId r) ∧
  ∃ db1 db2,
    InsertReferral io_always r db = Done true db1 ∧
    RemoveReferral io_always r db1 = Done true db2 ∧
    ¬ reads_restored db db2 r (parent_address_of db1 r).
Proof.
  intros r db. split; [|split].
  - split; [done|]. intros h c. subst db. unfold_reads.
    destruct (decide (h = 7)) as [->|Hne].
    + rewrite lookup_insert_eq. intros [= <-]. done.
    + rewrite lookup_insert_ne by congruence. by rewrite lookup_empty.
  - intros x. subst db. map_reads. rewrite lookup_empty. simpl. apply not_elem_of_nil.
  - eexists _, _. split; [vm_compute; reflexivity|].
    split; [vm_compute; reflexivity|].
    intros (Hr & _). vm_compute in Hr. discriminate Hr.
Qed.

(** C6, amended: for a referral [r] that has no descendants, whose address
    is in no children list, whose code hash is not stored yet and whose
    address has no parent entry yet, [RemoveReferral r] after a successful
    [InsertReferral r] gives back the earlier results of [GetReferral] at
    its code hash, of [GetReferrer] at its address and of [GetChildren] at
    the resolved parent address. *)
Theorem RemoveReferral_inverts_fresh_insert io (r : Referral)
    (db db1 db2 : CDBWrapper) :
  no_descendants db r →
  in_no_children_list db (pubKeyId r) →
  GetReferral db (codeHash r) = None →
  GetReferrer db (pubKeyId r) = None →
  InsertReferral io r db = Done true db1 →
  RemoveReferral io r db1 = Done true db2 →
  reads_restored db db2 r (parent_address_of db1 r).
Proof.
  intros [Hself _] Hfresh Hcode Hparent Hins Hrem.
  apply InsertReferral_success in Hins. apply RemoveReferral_success in Hrem.
  simpl in Hins, Hrem.
  set (pa := parent_address_of db r).
  assert (Hpa1 : parent_address_of
                   (<[K_REFERRALS (codeHash r) := V_referral r]> db) r = pa).
  { unfold pa, parent_address_of. by map_reads. }
  rewrite Hpa1 in Hins.
  assert (Hpa : parent_address_of db1 r = pa).
  { rewrite <- Hpa1, Hins. apply parent_address_of_ext. intros h. by map_reads. }
  assert (Hpa2 : parent_address_of (delete (K_REFERRALS (codeHash r)) db1) r = pa).
  { rewrite Hins. unfold pa, parent_address_of. by map_reads. }
  rewrite Hpa2 in Hrem. rewrite Hpa.
  assert (Hch1 : GetChildren db1 pa = GetChildren db pa ++ [pubKeyId r]).
  { rewrite Hins. by map_reads. }
  rewrite Hch1, filter_remove_appended in Hrem by apply Hfresh.
  unfold reads_restored. rewrite Hcode, Hparent, Hrem, Hins.
  split; [|split].
  - by map_reads.
  - by map_reads.
  - map_reads. simpl. done.
Qed.

Lemma RemoveReferral_inverts_fresh_insert_witness :
  let r := mkReferral 7 1 0 in
  reads_restored ∅
    (<[K_CHILDREN 0 := V_children []]> ∅) r
    (parent_address_of
       (<[K_CHILDREN 0 := V_children [1]]>
          (<[K_PARENT_KEY 1 := V_address 0]>
             (<[K_REFERRALS 7 := V_referral r]> ∅))) r).
Proof.
  intros r.
  apply (RemoveReferral_inverts_fresh_insert io_always r ∅).
  - split; [done|]. intros h c. unfold_reads. by rewrite lookup_empty.
  - intros x. unfold_reads. rewrite lookup_empty. apply not_elem_of_nil.
  - reflexivity.
  - reflexivity.
  - vm_compute. reflexivity.
  - vm_compute. reflexivity.
Defined.

(** ** Lottery admission *)

Lemma AddAddressToLottery_absent flog rand_value a db :
  GetANV db a = None →
  AddAddressToLottery flog rand_value a db = Done false db.
Proof.
  intros H. unfold AddAddressToLottery, bind, gets. by rewrite H.
Qed.

Lemma AddAddressToLottery_present flog rand_value a db r :
  GetANV db a = Some r →
  (flog (rand_value mod 2 ^ 64)%N <= flog (2 ^ 64 - 1)%N)%Q →
  AddAddressToLottery flog rand_value a db = Done true db.
Proof.
  intros H Hle. unfold AddAddressToLottery, bind, gets. rewrite H.
  assert (Hrand : Qle_bool (flog (rand_value mod 2 ^ 64) - LOG_MAX_UINT64 flog) 0
                  = true).
  { apply Qle_bool_iff. unfold LOG_MAX_UINT64. lra. }
  rewrite Hrand. reflexivity.
Qed.

(** C9: for an address that has an ANV record and any random seed,
    [AddAddressToLottery] returns [true] and hands back the store it was
    given: heap size, heap slots and every other table are as before.
    The logarithm is taken as monotone. *)
Theorem AddAddressToLottery_leaves_store flog (rand_value : uint256)
    (a : Address) (db : CDBWrapper) (r : AddressANV) :
  (∀ u v, u ≤ v → (flog u <= flog v)%Q) →
  GetANV db a = Some r →
  AddAddressToLottery flog rand_value a db = Done true db.
Proof.
  intros Hmono H. apply (AddAddressToLottery_present _ _ _ _ r H).
  apply Hmono.
  assert (rand_value mod 2 ^ 64 < 2 ^ 64) by (apply N.mod_upper_bound; done).
  lia.
Qed.

Lemma AddAddressToLottery_leaves_store_witness :
  AddAddressToLottery (λ u, inject_Z (Z.of_N u)) 5 3
    (<[K_ANV 3 := V_anv (1, 3, 100%Z)]> ∅)
  = Done true (<[K_ANV 3 := V_anv (1, 3, 100%Z)]> ∅).
Proof.
  apply (AddAddressToLottery_leaves_store _ 5 3 _ (mkAddressANV 1 3 100%Z)).
  - intros u v Huv. rewrite <- Zle_Qle. lia.
  - vm_compute. reflexivity.
Defined.

(** C2 at a store with an ANV record for address 3 and an empty heap: the
    call returns [true] and the store is as before, so nothing was put
    into the heap although it holds fewer than 1000 entries.  With the
    seed [2 ^ 64 - 1] this holds whatever the logarithm is. *)
Theorem AddAddressToLottery_admits_nothing :
  let db : CDBWrapper := <[K_ANV 3 := V_anv (1, 3, 100%Z)]> ∅ in
  GetLotteryHeapSize db = 0 ∧
  (∀ flog, AddAddressToLottery flog (2 ^ 64 - 1) 3 db = Done true db) ∧
  (∀ key, ∃ db', InsertLotteryAddress io_always key 3 db = Done true db' ∧
                 GetLotteryHeapSize db' = 1).
Proof.
  intros db. split; [reflexivity|]. split.
  - intros flog.
    apply (AddAddressToLottery_present _ _ _ _ (mkAddressANV 1 3 100%Z)).
    + reflexivity.
    + change ((2 ^ 64 - 1) mod 2 ^ 64) with (2 ^ 64 - 1). lra.
  - intros key. eexists. split; vm_compute; reflexivity.
Qed.

(** ** ANV aggregation *)

Lemma referrer_chain_ext db1 db2 a xs :
  (∀ x, GetReferrer db2 x = GetReferrer db1 x) →
  referrer_chain db1 a xs → referrer_chain db2 a xs.
Proof.
  intros Hext H. induction H as [a Ha|a p xs Ha _ IH].
  - apply chain_root. by rewrite Hext.
  - apply chain_step; [by rewrite Hext|done].
Qed.

Lemma referrer_chain_functional db a xs ys :
  referrer_chain db a xs → referrer_chain db a ys → xs = ys.
Proof.
  intros H. revert ys. induction H as [a Ha|a p xs Ha _ IH]; intros ys Hys.
  - inversion Hys; [done | congruence].
  - inversion Hys as [|a' p' ys' Ha' Hp']; subst; [congruence|].
    assert (p' = p) as -> by congruence. f_equal. by apply IH.
Qed.

Lemma referrer_chain_suffix db a xs x :
  referrer_chain db a xs → x ∈ xs →
  ∃ ys, referrer_chain db x ys ∧ (length ys < length xs)%nat.
Proof.
  intros H. induction H as [a Ha|a p xs Ha Hp IH]; intros Hx.
  - by apply elem_of_nil in Hx.
  - apply elem_of_cons in Hx as [->|Hx].
    + exists xs. split; [done|]. simpl. lia.
    + destruct (IH Hx) as (ys & Hys & Hlen). exists ys. split; [done|].
      simpl. lia.
Qed.

(** A chain that ends visits no address twice. *)
Lemma referrer_chain_NoDup db a xs :
  referrer_chain db a xs → NoDup (a :: xs).
Proof.
  intros H. induction H as [a Ha|a p xs Ha Hp IH].
  - apply NoDup_singleton.
  - apply NoDup_cons. split; [|done].
    intros Hin.
    destruct (referrer_chain_suffix db a (p :: xs) a) as (ys & Hys & Hlen);
      [by apply chain_step|done|].
    assert (ys = p :: xs)
      by (eapply referrer_chain_functional; [done|by apply chain_step]).
    subst ys. lia.
Qed.

(** [int64_t] addition on the sums the embedding follows: the stored
    sum is at or above zero exactly when the sum is and fits, and is
    then the sum itself. *)
Lemma wrap_int64_nonneg s :
  sum_in_reach s = true → (0 <=? wrap_int64 s)%Z = fits_nonneg s.
Proof.
  unfold sum_in_reach, wrap_int64, fits_nonneg, INT64_MIN, INT64_MAX.
  intros [Hlo Hhi]%andb_true_iff.
  apply Z.leb_le in Hlo. apply Z.leb_le in Hhi.
  apply eq_true_iff_eq.
  rewrite andb_true_iff, !Z.leb_le.
  change (2 ^ 64)%Z with 18446744073709551616%Z in *.
  change (2 ^ 63)%Z with 9223372036854775808%Z in *.
  Z.to_euclidean_division_equations. lia.
Qed.

Lemma wrap_int64_fits s : fits_nonneg s = true → wrap_int64 s = s.
Proof.
  unfold wrap_int64, fits_nonneg, INT64_MIN, INT64_MAX.
  intros [Hlo Hhi]%andb_true_iff.
  apply Z.leb_le in Hlo. apply Z.leb_le in Hhi.
  change (2 ^ 64)%Z with 18446744073709551616%Z in *.
  change (2 ^ 63)%Z with 9223372036854775808%Z in *.
  Z.to_euclidean_division_equations. lia.
Qed.

Lemma in_int64_reach s : in_int64 s = true → sum_in_reach s = true.
Proof.
  unfold in_int64, sum_in_reach, INT64_MIN, INT64_MAX.
  rewrite !andb_true_iff, !Z.leb_le. lia.
Qed.

Lemma fits_nonneg_reach s : fits_nonneg s = true → sum_in_reach s = true.
Proof.
  unfold fits_nonneg, sum_in_reach, INT64_MIN, INT64_MAX.
  rewrite !andb_true_iff, !Z.leb_le. lia.
Qed.

Lemma fits_nonneg_spec s :
  fits_nonneg s = true ↔ (0 ≤ s ≤ INT64_MAX)%Z.
Proof. unfold fits_nonneg. rewrite andb_true_iff, !Z.leb_le. done. Qed.

Lemma fits_nonneg_in_int64 s :
  in_int64 s = true → fits_nonneg s = (0 <=? s)%Z.
Proof.
  unfold in_int64, fits_nonneg.
  intros [_ ->]%andb_true_iff. by rewrite andb_true_r.
Qed.

(** One round at an address, spelled out. *)
Lemma UpdateANV_round_Some io ty start v a levels db :
  UpdateANV_round io ty start v (Some a, levels) db =
  if levels <? MAX_LEVELS then
    let t' := new_record ty start v levels (anv_record db a) in
    if negb (sum_in_reach t'.2) then Fatal SignedOverflow
    else if negb (fits_nonneg t'.2) then Fatal NegativeANV
    else if io db (K_ANV a) then
      Done (Continue (GetReferrer db a, levels + 1)) (<[K_ANV a := V_anv t']> db)
    else Done (Stop (Return false)) db
  else Done (Stop (LoopEnd (Some a, levels))) db.
Proof.
  unfold UpdateANV_round, bind, gets, m_db_Write, assert, ret, abort.
  destruct (levels <? MAX_LEVELS); [|done].
  fold (anv_record db a). unfold new_record.
  destruct (anv_record db a) as [[ty0 origin] amount].
  destruct (levels =? 0); simpl.
  all: destruct (sum_in_reach (amount + v)) eqn:Hreach; simpl; [|done].
  all: rewrite (wrap_int64_nonneg _ Hreach).
  all: destruct (fits_nonneg (amount + v)) eqn:Hfits; simpl; [|done].
  all: rewrite (wrap_int64_fits _ Hfits).
  all: destruct (io db (K_ANV a)); simpl; [|done].
  all: f_equal; f_equal; f_equal; by map_reads.
Qed.

Lemma UpdateANV_round_None io ty start v levels db :
  UpdateANV_round io ty start v (None, levels) db
  = Done (Stop (LoopEnd (None, levels))) db.
Proof. reflexivity. Qed.

Lemma anv_record_insert_ne db a x t :
  x ≠ a → anv_record (<[K_ANV a := V_anv t]> db) x = anv_record db x.
Proof. intros H. unfold anv_record. by map_reads. Qed.

Lemma GetReferrer_insert_anv db a t x :
  GetReferrer (<[K_ANV a := V_anv t]> db) x = GetReferrer db x.
Proof. by map_reads. Qed.

(** The loop along a chain that ends, when it is left through its guard
    with the level bound not reached. *)
Lemma UpdateANV_loop_success io ty start v xs :
  ∀ a db n levels db' a' l',
    referrer_chain db a xs →
    loop_nat n (UpdateANV_round io ty start v) (Some a, levels) db
      = Done (Stop (LoopEnd (a', l'))) db' →
    l' < MAX_LEVELS →
    (∀ k, (∀ x, x ∈ a :: xs → k ≠ K_ANV x) → db' !! k = db !! k) ∧
    db' !! K_ANV a
      = Some (V_anv (new_record ty start v levels (anv_record db a))) ∧
    (∀ x, x ∈ xs →
          db' !! K_ANV x
          = Some (V_anv (new_record ty start v 1 (anv_record db x)))).
Proof.
  induction xs as [|p xs IH]; intros a db n levels db' a' l' Hchain Hloop Hl'.
  all: pose proof (referrer_chain_NoDup _ _ _ Hchain) as Hnd.
  all: destruct n as [|n]; [discriminate Hloop|].
  all: rewrite loop_nat_S, UpdateANV_round_Some in Hloop.
  all: destruct (N.ltb_spec levels MAX_LEVELS) as [Hg|Hg];
       [|injection Hloop as <- <- <-; lia].
  all: simpl in Hloop.
  all: destruct (sum_in_reach _); simpl in Hloop; [|discriminate Hloop].
  all: destruct (fits_nonneg _); simpl in Hloop; [|discriminate Hloop].
  all: destruct (io db (K_ANV a)); [|discriminate Hloop].
  - inversion Hchain as [a0 Ha|]; subst. rewrite Ha in Hloop.
    destruct n as [|n]; [discriminate Hloop|].
    rewrite loop_nat_S, UpdateANV_round_None in Hloop.
    injection Hloop as <- <- <-.
    split; [|split].
    + intros k Hk. rewrite lookup_insert_ne; [done|].
      intros <-. apply (Hk a); [left|done].
    + by rewrite lookup_insert_eq.
    + intros x Hx. by apply elem_of_nil in Hx.
  - inversion Hchain as [|a0 p0 xs0 Ha Hp]; subst. rewrite Ha in Hloop.
    apply NoDup_cons in Hnd as [Hnotin Hnd].
    eapply IH in Hloop as (Hother & Hhead & Htail); [|
      eapply referrer_chain_ext; [|exact Hp];
      intros x; apply GetReferrer_insert_anv | done].
    assert (Hp_ne : p ≠ a) by (intros ->; apply Hnotin; left).
    split; [|split].
    + intros k Hk. rewrite Hother.
      * rewrite lookup_insert_ne; [done|]. intros <-. apply (Hk a); [left|done].
      * intros x Hx. apply Hk. by right.
    + rewrite Hother.
      * by rewrite lookup_insert_eq.
      * intros x Hx [= <-]. done.
    + intros x Hx. apply elem_of_cons in Hx as [->|Hx].
      * rewrite Hhead, anv_record_insert_ne by done.
        unfold new_record. destruct (N.eqb_spec (levels + 1) 0); [lia|done].
      * rewrite Htail by done. rewrite anv_record_insert_ne; [done|].
        intros ->. apply Hnotin. by right.
Qed.

(** The loop returns from inside its body only with [false]. *)
Lemma UpdateANV_loop_return io ty start v n :
  ∀ s db b db',
    loop_nat n (UpdateANV_round io ty start v) s db = Done (Stop (Return b)) db' →
    b = false.
Proof.
  induction n as [|n IH]; intros [[a|] levels] db b db' H;
    try discriminate H; rewrite loop_nat_S in H.
  rewrite UpdateANV_round_Some in H.
  destruct (levels <? MAX_LEVELS); [|discriminate H]. simpl in H.
  destruct (sum_in_reach _); simpl in H; [|discriminate H].
  destruct (fits_nonneg _); simpl in H; [|discriminate H].
  destruct (io db (K_ANV a)); [by eapply IH|congruence].
Qed.

(** [levels] counts the rounds, and a round is only made below the bound. *)
Lemma UpdateANV_loop_counts io ty start v n :
  ∀ a levels db a' l' db',
    loop_nat n (UpdateANV_round io ty start v) (a, levels) db
      = Done (Continue (a', l')) db' →
    l' = levels + N.of_nat n ∧ (n ≠ O → l' ≤ MAX_LEVELS).
Proof.
  induction n as [|n IH]; intros a levels db a' l' db' H.
  - injection H as <- <- <-. split; [lia|done].
  - rewrite loop_nat_S in H. destruct a as [a|].
    + rewrite UpdateANV_round_Some in H.
      destruct (N.ltb_spec levels MAX_LEVELS) as [Hg|Hg]; [|discriminate H].
      simpl in H.
      destruct (sum_in_reach _); simpl in H; [|discriminate H].
      destruct (fits_nonneg _); simpl in H; [|discriminate H].
      destruct (io db (K_ANV a)); [|discriminate H].
      apply IH in H as [-> Hle]. split; [lia|]. intros _.
      destruct n as [|n]; [simpl; lia|]. apply Hle. done.
    + rewrite UpdateANV_round_None in H. discriminate H.
Qed.

(** The bound of [2 ^ 64] evaluations of the guard is never what ends the
    loop of [UpdateANV]. *)
Lemma UpdateANV_loop_ends io ty start v db s db' :
  loop_pos (2 ^ 64)%positive (UpdateANV_round io ty start v)
    (Some start, 0) db ≠ Done (Continue s) db'.
Proof.
  rewrite loop_pos_nat. destruct s as [a' l'].
  pose proof (positive_nat_N (2 ^ 64)) as Hn.
  generalize dependent (Pos.to_nat (2 ^ 64)). intros n Hn H.
  apply UpdateANV_loop_counts in H as [-> Hle].
  assert (Hn0 : n ≠ O) by (intros ->; discriminate Hn).
  apply Hle in Hn0. rewrite Hn in Hn0. unfold MAX_LEVELS in Hn0.
  change (N.pos (2 ^ 64)) with (2 ^ 64) in Hn0. lia.
Qed.

(** What a [true] from [UpdateANV] says about its loop. *)
Lemma UpdateANV_true_inv io ty start v db db' :
  UpdateANV io ty start v db = Done true db' →
  ∃ n a' l',
    loop_nat n (UpdateANV_round io ty start v) (Some start, 0) db
      = Done (Stop (LoopEnd (a', l'))) db' ∧ l' < MAX_LEVELS.
Proof.
  unfold UpdateANV, bind. rewrite loop_pos_nat.
  generalize (Pos.to_nat (2 ^ 64)). intros n.
  destruct (loop_nat _ _ _ db) as [[s|[[a' l']|b]] db1|why] eqn:Hloop;
    simpl; try discriminate.
  - unfold assert. destruct (N.ltb_spec l' MAX_LEVELS) as [Hl|Hl];
      simpl; [|discriminate].
    intros [= <-]. eauto.
  - intros [= -> <-]. apply UpdateANV_loop_return in Hloop. discriminate Hloop.
Qed.

Lemma GetANV_lookup db x t :
  db !! K_ANV x = Some (V_anv t) → GetANV db x = Some (to_AddressANV t).
Proof. intros H. unfold GetANV, m_db_Read_anv. by rewrite H. Qed.

(** C1: when the ancestor chain of [a] is free of cycles and
    [UpdateANV addressType a v] returns [true], the amount of [a] and of
    every ancestor of [a] has grown by [v], once each (an address without
    a record counting as amount 0); the record of [a] carries
    [addressType] and [a] as type and origin, the record of an ancestor
    keeps the type and origin it had; every other ANV record and every
    other entry of the store is as before. *)
Theorem UpdateANV_propagates io (addressType : N) (a : Address) (v : CAmount)
    (xs : list Address) (db db' : CDBWrapper) :
  referrer_chain db a xs →
  UpdateANV io addressType a v db = Done true db' →
  GetANV db' a = Some (mkAddressANV addressType a (stored_amount db a + v)%Z) ∧
  (∀ x, x ∈ xs →
        GetANV db' x
        = Some (mkAddressANV (anv_record db x).1.1 (anv_record db x).1.2
                              (stored_amount db x + v)%Z)) ∧
  (∀ y, y ∉ a :: xs → GetANV db' y = GetANV db y) ∧
  (∀ k, (∀ x, x ∈ a :: xs → k ≠ K_ANV x) → db' !! k = db !! k) ∧
  NoDup (a :: xs).
Proof.
  intros Hchain H. apply UpdateANV_true_inv in H as (n & a' & l' & Hloop & Hl').
  destruct (UpdateANV_loop_success _ _ _ _ _ _ _ _ _ _ _ _ Hchain Hloop Hl')
    as (Hother & Hhead & Htail).
  split; [|split; [|split; [|split]]].
  - by rewrite (GetANV_lookup _ _ _ Hhead).
  - intros x Hx. by rewrite (GetANV_lookup _ _ _ (Htail x Hx)).
  - intros y Hy. unfold GetANV, m_db_Read_anv. rewrite Hother; [done|].
    intros x Hx [= <-]. done.
  - done.
  - by eapply referrer_chain_NoDup.
Qed.

Lemma example_chain : referrer_chain example_db_child 2 [1; 0].
Proof.
  apply chain_step; [reflexivity|].
  apply chain_step; [reflexivity|].
  apply chain_root. reflexivity.
Qed.

Lemma UpdateANV_propagates_witness :
  GetANV example_db_anv 2
    = Some (mkAddressANV 1 2 (stored_amount example_db_child 2%N + 100)%Z) ∧
  (∀ x, x ∈ [1; 0] →
        GetANV example_db_anv x
        = Some (mkAddressANV (anv_record example_db_child x).1.1
                              (anv_record example_db_child x).1.2
                              (stored_amount example_db_child x + 100)%Z)) ∧
  (∀ y, y ∉ [2; 1; 0] → GetANV example_db_anv y = GetANV example_db_child y) ∧
  (∀ k, (∀ x, x ∈ [2; 1; 0] → k ≠ K_ANV x) →
        example_db_anv !! k = example_db_child !! k) ∧
  NoDup [2; 1; 0].
Proof.
  apply (UpdateANV_propagates io_always 1 2 100%Z [1; 0] example_db_child).
  - exact example_chain.
  - vm_compute. reflexivity.
Defined.

Lemma new_record_amount ty start v levels t :
  (new_record ty start v levels t).2 = (t.2 + v)%Z.
Proof. unfold new_record. by destruct (levels =? 0). Qed.

Lemma stored_amount_insert db a t x :
  stored_amount (<[K_ANV a := V_anv t]> db) x
  = if decide (x = a) then t.2 else stored_amount db x.
Proof.
  unfold stored_amount, anv_record. destruct (decide (x = a)) as [->|Hne];
    by map_reads.
Qed.

Lemma visited_None db n : visited db n None = [].
Proof. by destruct n. Qed.

Lemma visited_ext db1 db2 n a :
  (∀ x, GetReferrer db2 x = GetReferrer db1 x) →
  visited db2 n a = visited db1 n a.
Proof.
  intros Hext. revert a. induction n as [|n IH]; intros [x|]; simpl; try done.
  by rewrite Hext, IH.
Qed.

Lemma touches_in_range_ext tot1 tot2 xs v :
  (∀ x, tot2 x = tot1 x) →
  touches_in_range tot1 xs v → touches_in_range tot2 xs v.
Proof.
  revert tot1 tot2. induction xs as [|x xs IH]; intros tot1 tot2 Htot; [done|].
  simpl. intros [Hx Hrest]. split; [by rewrite Htot|].
  eapply IH; [|exact Hrest]. intros y. unfold credit. by rewrite Htot.
Qed.

Lemma touches_in_range_ok tot xs v :
  touches_in_range tot xs v → touches_ok tot xs v.
Proof.
  revert tot. induction xs as [|x xs IH]; intros tot; [done|].
  simpl. intros [Hx Hrest]. split; [lia|by apply IH].
Qed.

(** The running totals of the amended claim are running totals of the
    claim. *)
Lemma running_totals_in_range_ok db tot calls :
  running_totals_in_range db tot calls → running_totals_ok db tot calls.
Proof.
  revert tot. induction calls as [|[[ty a] v] rest IH]; intros tot; [done|].
  simpl. intros [Hok Hrest]. split.
  - intros n Hn. by apply touches_in_range_ok, Hok.
  - intros xs Hchain. by apply IH, Hrest.
Qed.

(** No round aborts when its touch keeps the running total at or above
    zero and within [CAmount]. *)
Lemma UpdateANV_loop_in_range io ty start v n :
  ∀ a levels db why,
    (∀ m, N.of_nat m + levels ≤ MAX_LEVELS →
          touches_in_range (stored_amount db) (visited db m (Some a)) v) →
    loop_nat n (UpdateANV_round io ty start v) (Some a, levels) db
      ≠ Fatal why.
Proof.
  induction n as [|n IH]; intros a levels db why Hok; [done|].
  rewrite loop_nat_S, UpdateANV_round_Some.
  destruct (N.ltb_spec levels MAX_LEVELS) as [Hg|Hg]; [|done]. simpl.
  rewrite new_record_amount.
  destruct (Hok 1%nat ltac:(lia)) as [Hnow _].
  unfold stored_amount in Hnow. apply fits_nonneg_spec in Hnow.
  rewrite (fits_nonneg_reach _ Hnow), Hnow. simpl.
  destruct (io db (K_ANV a)); [|done].
  destruct (GetReferrer db a) as [p|] eqn:Hp; [|by destruct n].
  apply IH. intros m Hm.
  destruct (Hok (S m) ltac:(lia)) as [_ Hrest]. simpl in Hrest.
  rewrite Hp in Hrest.
  rewrite (visited_ext db) by (intros x; apply GetReferrer_insert_anv).
  eapply touches_in_range_ext; [|exact Hrest].
  intros x. rewrite stored_amount_insert, new_record_amount. unfold credit.
  destruct (decide (x = a)) as [->|Hne].
  - by rewrite decide_True by (by apply list_elem_of_singleton).
  - by rewrite decide_False by (by rewrite list_elem_of_singleton).
Qed.

(** Such a call can only abort on the assertion behind the loop. *)
Lemma UpdateANV_in_range io ty a v db why :
  (∀ m, N.of_nat m ≤ MAX_LEVELS →
        touches_in_range (stored_amount db) (visited db m (Some a)) v) →
  UpdateANV io ty a v db = Fatal why → why = CycleDetected.
Proof.
  intros Hok. unfold UpdateANV, bind. rewrite loop_pos_nat.
  generalize (Pos.to_nat (2 ^ 64)). intros n.
  pose proof (UpdateANV_loop_in_range io ty a v n a 0 db) as H.
  destruct (loop_nat _ _ _ db) as [[s|[[a' l']|b]] db1|why'] eqn:Hloop; simpl.
  - by intros [= <-].
  - unfold assert. destruct (l' <? MAX_LEVELS); simpl; [done|by intros [= <-]].
  - done.
  - exfalso. apply (H why'); [|done]. intros m Hm. apply Hok. lia.
Qed.

(** A loop that is left through its guard below the level bound went
    through a chain that ends. *)
Lemma UpdateANV_loop_chain io ty start v n :
  ∀ a levels db a' l' db',
    loop_nat n (UpdateANV_round io ty start v) (Some a, levels) db
      = Done (Stop (LoopEnd (a', l'))) db' →
    l' < MAX_LEVELS →
    ∃ xs, referrer_chain db a xs.
Proof.
  induction n as [|n IH]; intros a levels db a' l' db' H Hl';
    [discriminate H|].
  rewrite loop_nat_S, UpdateANV_round_Some in H.
  destruct (N.ltb_spec levels MAX_LEVELS) as [Hg|Hg];
    [|injection H as <- <- <-; lia].
  simpl in H.
  destruct (sum_in_reach _); simpl in H; [|discriminate H].
  destruct (fits_nonneg _); simpl in H; [|discriminate H].
  destruct (io db (K_ANV a)); [|discriminate H].
  destruct (GetReferrer db a) as [p|] eqn:Hp.
  - eapply IH in H as [xs Hxs]; [|done]. exists (p :: xs).
    apply chain_step; [done|].
    eapply referrer_chain_ext; [|exact Hxs].
    intros x. symmetry. apply GetReferrer_insert_anv.
  - exists []. by apply chain_root.
Qed.

Lemma UpdateANV_true_chain io ty a v db db' :
  UpdateANV io ty a v db = Done true db' → ∃ xs, referrer_chain db a xs.
Proof.
  intros H. apply UpdateANV_true_inv in H as (n & a' & l' & Hloop & Hl').
  by eapply UpdateANV_loop_chain.
Qed.

(** A successful call leaves the parent index alone and moves the stored
    amounts the way the caller's account moves. *)
Lemma UpdateANV_true_amounts io ty a v xs db db' :
  referrer_chain db a xs →
  UpdateANV io ty a v db = Done true db' →
  (∀ x, GetReferrer db' x = GetReferrer db x) ∧
  (∀ x, stored_amount db' x = credit (a :: xs) v (stored_amount db) x).
Proof.
  intros Hchain H. apply UpdateANV_true_inv in H as (n & a' & l' & Hloop & Hl').
  destruct (UpdateANV_loop_success _ _ _ _ _ _ _ _ _ _ _ _ Hchain Hloop Hl')
    as (Hother & Hhead & Htail).
  split.
  - intros x. unfold GetReferrer, m_db_Read_address. by rewrite Hother.
  - intros x. unfold credit. destruct (decide (x ∈ a :: xs)) as [Hin|Hout].
    + apply elem_of_cons in Hin as [->|Hin].
      * unfold stored_amount at 1. unfold anv_record, m_db_Read_anv.
        rewrite Hhead. simpl. reflexivity.
      * unfold stored_amount at 1. unfold anv_record, m_db_Read_anv.
        rewrite (Htail x Hin). simpl. reflexivity.
    + unfold stored_amount, anv_record, m_db_Read_anv. rewrite Hother; [done|].
      intros y Hy [= <-]. done.
Qed.

Lemma running_totals_in_range_ext db1 db2 tot1 tot2 calls :
  (∀ x, GetReferrer db2 x = GetReferrer db1 x) →
  (∀ x, tot2 x = tot1 x) →
  running_totals_in_range db1 tot1 calls →
  running_totals_in_range db2 tot2 calls.
Proof.
  intros Hdb. revert tot1 tot2.
  induction calls as [|[[ty a] v] rest IH]; intros tot1 tot2 Htot; [done|].
  simpl. intros [Hok Hrest]. split.
  - intros n Hn. rewrite (visited_ext db1) by done.
    eapply touches_in_range_ext; [exact Htot|]. by apply Hok.
  - intros xs Hchain. eapply IH; [|apply Hrest].
    + intros x. unfold credit. by rewrite Htot.
    + eapply referrer_chain_ext; [|exact Hchain]. intros x. by rewrite Hdb.
Qed.

(** Whatever a call does, it stores no amount below zero. *)
Lemma UpdateANV_loop_nonneg io ty start v n :
  ∀ s db r db',
    loop_nat n (UpdateANV_round io ty start v) s db = Done r db' →
    (∀ x, (0 ≤ stored_amount db x)%Z) → ∀ x, (0 ≤ stored_amount db' x)%Z.
Proof.
  induction n as [|n IH]; intros [[a|] levels] db r db' H Hdb;
    try (injection H as <- <-; done); rewrite loop_nat_S in H.
  rewrite UpdateANV_round_Some in H.
  destruct (levels <? MAX_LEVELS); [|by injection H as <- <-]. simpl in H.
  destruct (sum_in_reach _); simpl in H; [|discriminate H].
  destruct (fits_nonneg _) eqn:Hpos; simpl in H; [|discriminate H].
  apply fits_nonneg_spec in Hpos as [Hpos _].
  destruct (io db (K_ANV a)); [|by injection H as <- <-].
  eapply IH; [exact H|]. intros x. rewrite stored_amount_insert.
  by destruct (decide (x = a)).
Qed.

Lemma UpdateANV_nonneg io ty a v db b db' :
  UpdateANV io ty a v db = Done b db' →
  (∀ x, (0 ≤ stored_amount db x)%Z) → ∀ x, (0 ≤ stored_amount db' x)%Z.
Proof.
  unfold UpdateANV, bind. rewrite loop_pos_nat.
  generalize (Pos.to_nat (2 ^ 64)). intros n.
  destruct (loop_nat _ _ _ db) as [[s|[[a' l']|b0]] db1|why] eqn:Hloop;
    simpl; try discriminate.
  - unfold assert. destruct (l' <? MAX_LEVELS); simpl; [|discriminate].
    intros [= <- <-]. by eapply UpdateANV_loop_nonneg.
  - intros [= <- <-]. by eapply UpdateANV_loop_nonneg.
Qed.

Lemma sum_in_reach_operands amount v :
  fits_nonneg amount = true → in_int64 v = true →
  sum_in_reach (amount + v) = true.
Proof.
  unfold fits_nonneg, in_int64, sum_in_reach, INT64_MIN, INT64_MAX.
  rewrite !andb_true_iff, !Z.leb_le. lia.
Qed.

(** On a store whose amounts are in [0 .. INT64_MAX], a change that fits
    [int64_t] never gives a sum the embedding does not follow. *)
Lemma UpdateANV_loop_in_reach io ty start v n :
  in_int64 v = true →
  ∀ s db,
    (∀ x, fits_nonneg (stored_amount db x) = true) →
    loop_nat n (UpdateANV_round io ty start v) s db ≠ Fatal SignedOverflow.
Proof.
  intros Hv. induction n as [|n IH]; intros [[a|] levels] db Hdb; try done.
  rewrite loop_nat_S, UpdateANV_round_Some.
  destruct (levels <? MAX_LEVELS); [|done]. simpl.
  rewrite new_record_amount. fold (stored_amount db a).
  rewrite (sum_in_reach_operands _ _ (Hdb a) Hv). simpl.
  destruct (fits_nonneg _) eqn:Hfits; simpl; [|done].
  destruct (io db (K_ANV a)); [|done].
  apply IH. intros x. rewrite stored_amount_insert.
  destruct (decide (x = a)) as [->|Hne]; [|done].
  by rewrite new_record_amount.
Qed.

Lemma UpdateANV_in_reach io ty a v db :
  in_int64 v = true →
  (∀ x, fits_nonneg (stored_amount db x) = true) →
  UpdateANV io ty a v db ≠ Fatal SignedOverflow.
Proof.
  intros Hv Hdb. unfold UpdateANV, bind. rewrite loop_pos_nat.
  generalize (Pos.to_nat (2 ^ 64)). intros n.
  pose proof (UpdateANV_loop_in_reach io ty a v n Hv (Some a, 0) db Hdb) as H.
  destruct (loop_nat _ _ _ db) as [[s|[[a' l']|b]] db1|why]; simpl;
    try done.
  - unfold assert. by destruct (l' <? MAX_LEVELS).
  - intros [= ->]. done.
Qed.

Lemma UpdateANV_seq_cons io ty a v rest db :
  UpdateANV_seq io ((ty, a, v) :: rest) db =
  match UpdateANV io ty a v db with
  | Done true db' => UpdateANV_seq io rest db'
  | Done false db' => Done false db'
  | Fatal why => Fatal why
  end.
Proof.
  cbn [UpdateANV_seq]. unfold bind.
  by destruct (UpdateANV io ty a v db) as [[|] db'|why].
Qed.

Lemma UpdateANV_seq_in_range io calls :
  ∀ db tot why,
    (∀ x, stored_amount db x = tot x) →
    running_totals_in_range db tot calls →
    UpdateANV_seq io calls db = Fatal why → why = CycleDetected.
Proof.
  induction calls as [|[[ty a] v] rest IH]; intros db tot why Htot Hok;
    [done|].
  cbn [running_totals_in_range] in Hok. destruct Hok as [Hnonneg Hrest].
  rewrite UpdateANV_seq_cons.
  destruct (UpdateANV io ty a v db) as [[|] db1|why'] eqn:Hcall.
  - destruct (UpdateANV_true_chain _ _ _ _ _ _ Hcall) as [xs Hchain].
    destruct (UpdateANV_true_amounts _ _ _ _ _ _ _ Hchain Hcall) as [Hp Ham].
    apply (IH db1 (credit (a :: xs) v tot)).
    + intros x. rewrite Ham. unfold credit. by rewrite Htot.
    + eapply running_totals_in_range_ext; [exact Hp|done|by apply Hrest].
  - done.
  - intros [= <-]. revert Hcall. apply UpdateANV_in_range.
    intros m Hm. eapply touches_in_range_ext; [exact Htot|]. by apply Hnonneg.
Qed.

Lemma UpdateANV_seq_nonneg io calls :
  ∀ db b db',
    UpdateANV_seq io calls db = Done b db' →
    (∀ x, (0 ≤ stored_amount db x)%Z) → ∀ x, (0 ≤ stored_amount db' x)%Z.
Proof.
  induction calls as [|[[ty a] v] rest IH]; intros db b db' H Hdb.
  - by injection H as <- <-.
  - rewrite UpdateANV_seq_cons in H.
    destruct (UpdateANV io ty a v db) as [[|] db1|why] eqn:Hcall;
      [|injection H as <- <-|discriminate H].
    + eapply IH; [exact H|]. by eapply UpdateANV_nonneg.
    + by eapply UpdateANV_nonneg.
Qed.

(** C7, as stated, fails where a total leaves [CAmount]: address 5 holds
    the largest amount, [INT64_MAX], and is credited 1.  The running
    total, [INT64_MAX + 1], is at or above zero, but the sum the source
    forms is an [int64_t], which holds [INT64_MIN] when the assertion
    [amount >= 0] looks at it: the call aborts there. *)
Lemma UpdateANV_credit_past_int64_max :
  running_totals_ok example_db_full (stored_amount example_db_full)
    [(1, 5, 1%Z)] ∧
  stored_amount example_db_full 5 = INT64_MAX ∧
  wrap_int64 (INT64_MAX + 1) = INT64_MIN ∧
  UpdateANV io_always 1 5 1%Z example_db_full = Fatal NegativeANV ∧
  UpdateANV_seq io_always [(1, 5, 1%Z)] example_db_full = Fatal NegativeANV.
Proof.
  assert (H5 : GetReferrer example_db_full 5 = None) by reflexivity.
  split; [|repeat split; vm_compute; reflexivity].
  cbn [running_totals_ok]. split; [|done].
  intros n _. destruct n as [|n];
    repeat (progress cbn [visited touches_ok]
            || rewrite H5 || rewrite visited_None);
    repeat split; vm_compute; discriminate.
Qed.

(** C7, amended: for a sequence of [UpdateANV] calls whose running
    totals, kept per address from the stored amounts on, stay at or above
    zero and at or below [INT64_MAX] at every address the calls touch,
    the assertion [amount >= 0] never fails and no sum leaves the
    embedding; and when no stored amount was below zero before, none is
    after. *)
Theorem UpdateANV_seq_assertion_holds io
    (calls : list (N * Address * CAmount)) (db : CDBWrapper) :
  running_totals_in_range db (stored_amount db) calls →
  UpdateANV_seq io calls db ≠ Fatal NegativeANV ∧
  UpdateANV_seq io calls db ≠ Fatal SignedOverflow ∧
  ((∀ x, (0 ≤ stored_amount db x)%Z) →
   ∀ b db', UpdateANV_seq io calls db = Done b db' →
            ∀ x, (0 ≤ stored_amount db' x)%Z).
Proof.
  intros Hok. split; [|split].
  - intros H. by eapply UpdateANV_seq_in_range in H.
  - intros H. by eapply UpdateANV_seq_in_range in H.
  - intros Hdb b db' H. by eapply UpdateANV_seq_nonneg.
Qed.

Lemma UpdateANV_seq_assertion_holds_witness :
  UpdateANV_seq io_always [(1, 2, 100%Z); (1, 1, (-40)%Z)] example_db_child
    ≠ Fatal NegativeANV ∧
  UpdateANV_seq io_always [(1, 2, 100%Z); (1, 1, (-40)%Z)] example_db_child
    ≠ Fatal SignedOverflow ∧
  ((∀ x, (0 ≤ stored_amount example_db_child x)%Z) →
   ∀ b db',
     UpdateANV_seq io_always [(1, 2, 100%Z); (1, 1, (-40)%Z)] example_db_child
       = Done b db' →
     ∀ x, (0 ≤ stored_amount db' x)%Z).
Proof.
  apply (UpdateANV_seq_assertion_holds io_always
           [(1, 2, 100%Z); (1, 1, (-40)%Z)] example_db_child).
  assert (H2 : GetReferrer example_db_child 2 = Some 1) by reflexivity.
  assert (H1 : GetReferrer example_db_child 1 = Some 0) by reflexivity.
  assert (H0 : GetReferrer example_db_child 0 = None) by reflexivity.
  cbn [running_totals_in_range]. split.
  - intros n _. destruct n as [|[|[|n]]];
      repeat (progress cbn [visited touches_in_range]
              || rewrite H2 || rewrite H1 || rewrite H0
              || rewrite visited_None);
      repeat split; vm_compute; discriminate.
  - intros xs Hxs.
    rewrite (referrer_chain_functional _ _ _ _ Hxs example_chain).
    split; [|done].
    intros n _. destruct n as [|[|n]];
      repeat (progress cbn [visited touches_in_range]
              || rewrite H1 || rewrite H0 || rewrite visited_None);
      repeat split; vm_compute; discriminate.
Defined.

(** ** Lottery heap *)

Lemma key_gt_true a b : key_gt a b = true ↔ (b < a)%Q.
Proof.
  unfold key_gt. rewrite negb_true_iff, <- not_true_iff_false, Qle_bool_iff.
  split; [apply Qnot_le_lt|apply Qlt_not_le].
Qed.

Lemma key_gt_false a b : key_gt a b = false ↔ (a <= b)%Q.
Proof. unfold key_gt. by rewrite negb_false_iff, Qle_bool_iff. Qed.

Lemma parent_pos_lt pos : pos ≠ 0 → parent_pos pos < pos.
Proof.
  intros Hpos. unfold parent_pos.
  destruct (pos mod 2 =? 0); rewrite N.shiftr_div_pow2;
    change (2 ^ 2) with 4.
  - apply N.div_lt; lia.
  - assert ((pos - 1) / 4 ≤ pos - 1) by (apply N.Div0.div_le_upper_bound; lia).
    lia.
Qed.

(** Both branches of the parent computation give a quarter of the
    position. *)
Lemma parent_pos_quarter pos : parent_pos pos = pos / 4.
Proof.
  unfold parent_pos. rewrite !N.shiftr_div_pow2. change (2 ^ 2) with 4.
  destruct (N.eqb_spec (pos mod 2) 0) as [|Hodd]; [done|].
  zify. Z.to_euclidean_division_equations. lia.
Qed.

Lemma parent_pos_le pos : parent_pos pos ≤ pos.
Proof.
  destruct (decide (pos = 0)) as [->|Hpos]; [done|].
  by apply N.lt_le_incl, parent_pos_lt.
Qed.

Lemma climb_S pos i : climb pos (S i) = parent_pos (climb pos i).
Proof. reflexivity. Qed.

Lemma climb_shift pos i : climb pos (S i) = climb (parent_pos pos) i.
Proof. unfold climb. apply Nat.iter_succ_r. Qed.

Lemma climb_le pos i : climb pos i ≤ pos.
Proof.
  induction i as [|i IH]; [done|]. rewrite climb_S.
  pose proof (parent_pos_le (climb pos i)). lia.
Qed.

(** While the walk has not reached the root, it goes strictly down. *)
Lemma climb_strict pos k :
  (∀ i, (i < k)%nat → climb pos i ≠ 0) →
  ∀ i, (i < k)%nat → climb pos k < climb pos i.
Proof.
  induction k as [|k IH]; intros Hnz i Hi; [lia|].
  rewrite climb_S.
  pose proof (parent_pos_lt (climb pos k) (Hnz k ltac:(lia))) as Hlt.
  destruct (decide (i = k)) as [->|Hne]; [done|].
  assert (climb pos k < climb pos i); [|lia].
  apply IH; [|lia]. intros j Hj. apply Hnz. lia.
Qed.

(** One round away from the root, spelled out. *)
Lemma InsertLotteryAddress_round_step io key pos db :
  pos ≠ 0 →
  InsertLotteryAddress_round io key pos db =
  match GetLotterySlot db (parent_pos pos) with
  | None => Done (Stop (Return false)) db
  | Some parent_value =>
      if key_gt key parent_value.1 then Done (Stop (LoopEnd pos)) db
      else if io db (K_LOT_VAL pos) then
        Done (Continue (parent_pos pos)) (<[K_LOT_VAL pos := V_lot parent_value]> db)
      else Done (Stop (Return false)) db
  end.
Proof.
  intros Hpos. unfold InsertLotteryAddress_round, bind, gets, ret, m_db_Write.
  destruct (N.eqb_spec pos 0) as [|_]; [done|].
  unfold GetLotterySlot.
  destruct (m_db_Read_lot db (K_LOT_VAL (parent_pos pos))) as [pv|]; [|done].
  destruct (key_gt key pv.1); [done|].
  by destruct (io db (K_LOT_VAL pos)).
Qed.

Lemma InsertLotteryAddress_round_root io key db :
  InsertLotteryAddress_round io key 0 db = Done (Stop (LoopEnd 0)) db.
Proof. reflexivity. Qed.

Lemma GetLotterySlot_insert_ne db pos pos' v :
  pos' ≠ pos →
  GetLotterySlot (<[K_LOT_VAL pos := v]> db) pos' = GetLotterySlot db pos'.
Proof. intros H. unfold GetLotterySlot. by map_reads. Qed.

(** The sift loop returns from inside its body only with [false]. *)
Lemma InsertLotteryAddress_loop_return io key n :
  ∀ pos db b db',
    loop_nat n (InsertLotteryAddress_round io key) pos db
      = Done (Stop (Return b)) db' →
    b = false.
Proof.
  induction n as [|n IH]; intros pos db b db' H; [discriminate H|].
  rewrite loop_nat_S in H.
  destruct (decide (pos = 0)) as [->|Hpos]; [discriminate H|].
  rewrite InsertLotteryAddress_round_step in H by done.
  destruct (GetLotterySlot db (parent_pos pos)) as [pv|]; [|congruence].
  destruct (key_gt key pv.1); [discriminate H|].
  destruct (io db (K_LOT_VAL pos)); [by eapply IH|congruence].
Qed.

(** Every round moves to a smaller position. *)
Lemma InsertLotteryAddress_loop_counts io key n :
  ∀ pos db pos' db',
    loop_nat n (InsertLotteryAddress_round io key) pos db
      = Done (Continue pos') db' →
    pos' + N.of_nat n ≤ pos.
Proof.
  induction n as [|n IH]; intros pos db pos' db' H.
  - injection H as <- <-. lia.
  - rewrite loop_nat_S in H.
    destruct (decide (pos = 0)) as [->|Hpos]; [discriminate H|].
    rewrite InsertLotteryAddress_round_step in H by done.
    destruct (GetLotterySlot db (parent_pos pos)) as [pv|]; [|discriminate H].
    destruct (key_gt key pv.1); [discriminate H|].
    destruct (io db (K_LOT_VAL pos)); [|discriminate H].
    apply IH in H. pose proof (parent_pos_lt pos Hpos). lia.
Qed.

(** Below the capacity, the bound of 1000 evaluations of the guard is never
    what ends the sift loop. *)
Lemma InsertLotteryAddress_loop_ends io key pos db pos' db' :
  pos < MAX_RESERVOIR_SIZE →
  loop_pos 1000%positive (InsertLotteryAddress_round io key) pos db
    ≠ Done (Continue pos') db'.
Proof.
  intros Hpos. rewrite loop_pos_nat.
  pose proof (positive_nat_N 1000) as Hn.
  generalize dependent (Pos.to_nat 1000). intros n Hn H.
  apply InsertLotteryAddress_loop_counts in H.
  unfold MAX_RESERVOIR_SIZE in Hpos. lia.
Qed.

(** The sift loop, when it is left through its guard or its [break]: it
    has made [k] rounds, each of which found a parent whose key the new
    key does not exceed and wrote that parent one step down; it stands at
    the root, or under a parent with a smaller key. *)
Lemma InsertLotteryAddress_loop_sifts io key n :
  ∀ pos db q db',
    loop_nat n (InsertLotteryAddress_round io key) pos db
      = Done (Stop (LoopEnd q)) db' →
    ∃ k : nat,
      q = climb pos k ∧
      (∀ i, (i < k)%nat →
            climb pos i ≠ 0 ∧
            ∃ pv, GetLotterySlot db (climb pos (S i)) = Some pv ∧
                  (key <= pv.1)%Q ∧
                  db' !! K_LOT_VAL (climb pos i) = Some (V_lot pv)) ∧
      (q = 0 ∨ ∃ pv, GetLotterySlot db (parent_pos q) = Some pv ∧
                     (pv.1 < key)%Q) ∧
      (∀ k', (∀ i, (i < k)%nat → k' ≠ K_LOT_VAL (climb pos i)) →
             db' !! k' = db !! k').
Proof.
  induction n as [|n IH]; intros pos db q db' H; [discriminate H|].
  rewrite loop_nat_S in H.
  destruct (decide (pos = 0)) as [->|Hpos].
  { rewrite InsertLotteryAddress_round_root in H. injection H as <- <-.
    exists O. split; [done|]. split; [intros i Hi; lia|].
    split; [by left|done]. }
  rewrite InsertLotteryAddress_round_step in H by done.
  destruct (GetLotterySlot db (parent_pos pos)) as [pv|] eqn:Hpv;
    [|discriminate H].
  destruct (key_gt key pv.1) eqn:Hgt.
  { injection H as <- <-. exists O. split; [done|].
    split; [intros i Hi; lia|]. split; [|done].
    right. exists pv. split; [done|]. by apply key_gt_true. }
  destruct (io db (K_LOT_VAL pos)); [|discriminate H].
  apply IH in H as (k & -> & Hmoved & Hstop & Hother).
  pose proof (parent_pos_lt pos Hpos) as Hlt.
  assert (Hbelow : ∀ j, climb (parent_pos pos) j ≠ pos).
  { intros j. pose proof (climb_le (parent_pos pos) j). lia. }
  exists (S k). split; [by rewrite climb_shift|]. split; [|split].
  - intros [|i] Hi.
    + split; [done|]. exists pv. split; [done|]. split; [by apply key_gt_false|].
      rewrite Hother; [by rewrite lookup_insert_eq|].
      intros j _ [= Heq]. by apply (Hbelow j).
    + destruct (Hmoved i ltac:(lia)) as (Hnz & pv' & Hread & Hle & Hwritten).
      rewrite (climb_shift pos i), (climb_shift pos (S i)).
      split; [done|]. exists pv'. split; [|done].
      rewrite <- Hread. symmetry. apply GetLotterySlot_insert_ne.
      apply Hbelow.
  - destruct Hstop as [Hroot|(pv' & Hread & Hlt')]; [by left|].
    right. exists pv'. split; [|done].
    rewrite <- Hread. symmetry. apply GetLotterySlot_insert_ne.
    rewrite <- climb_S. apply Hbelow.
  - intros k' Hk'. rewrite Hother.
    + rewrite lookup_insert_ne; [done|]. intros <-. by apply (Hk' O); [lia|].
    + intros i Hi. rewrite <- climb_shift. apply Hk'. lia.
Qed.

(** What a [true] from [InsertLotteryAddress] says about its steps. *)
Lemma InsertLotteryAddress_true_inv io key a db db' :
  InsertLotteryAddress io key a db = Done true db' →
  let pos := GetLotteryHeapSize db in
  pos < MAX_RESERVOIR_SIZE ∧
  ∃ n q db1,
    loop_nat n (InsertLotteryAddress_round io key) pos
      (<[K_LOT_SIZE := V_size (pos + 1)]> db)
      = Done (Stop (LoopEnd q)) db1 ∧
    db' = <[K_LOT_VAL q := V_lot (key, a)]> db1.
Proof.
  unfold InsertLotteryAddress, bind, gets, ret, m_db_Write. cbv beta.
  destruct (N.leb_spec MAX_RESERVOIR_SIZE (GetLotteryHeapSize db)) as [|Hpos];
    [discriminate|].
  destruct (io db K_LOT_SIZE); [|discriminate].
  rewrite loop_pos_nat. generalize (Pos.to_nat 1000). intros n.
  destruct (loop_nat _ _ _ _) as [[s|[q|b]] db1|why] eqn:Hloop;
    try discriminate.
  - destruct (io db1 (K_LOT_VAL q)); [|discriminate].
    intros [= <-]. split; [done|]. by exists n, q, db1.
  - intros [= -> <-]. apply InsertLotteryAddress_loop_return in Hloop.
    discriminate Hloop.
Qed.

(** C3, as stated, fails on equal keys: with the one entry [(-1, 11)] in
    the heap and the new entry [(-1, 12)], the parent of position 1 is
    position 0 under either parent formula and its key is not greater
    than the new key, so the sift of the specification stops and leaves
    the new entry at position 1; the source moves the parent down and
    puts the new entry at the root. *)
Lemma InsertLotteryAddress_swaps_equal_keys :
  let db : CDBWrapper :=
    <[K_LOT_VAL 0 := V_lot ((-1 # 1)%Q, 11)]> (<[K_LOT_SIZE := V_size 1]> ∅) in
  binary_parent 1 = 0 ∧ parent_pos 1 = 0 ∧
  ∃ db_spec db_src,
    InsertLotteryAddress_spec io_always (-1 # 1)%Q 12 db = Done true db_spec ∧
    InsertLotteryAddress io_always (-1 # 1)%Q 12 db = Done true db_src ∧
    GetLotterySlot db_spec 0 = Some ((-1 # 1)%Q, 11) ∧
    GetLotterySlot db_spec 1 = Some ((-1 # 1)%Q, 12) ∧
    GetLotterySlot db_src 0 = Some ((-1 # 1)%Q, 12) ∧
    GetLotterySlot db_src 1 = Some ((-1 # 1)%Q, 11).
Proof.
  intros db. split; [reflexivity|]. split; [reflexivity|].
  eexists _, _. split; [vm_compute; reflexivity|].
  split; [vm_compute; reflexivity|].
  repeat split; vm_compute; reflexivity.
Qed.

(** C3, amended: a successful [InsertLotteryAddress] below the capacity
    raises the size counter by one and sifts the new entry toward the
    root from the next free position [n], along the positions the source
    takes as parents: each round finds a parent whose key the new key
    does not exceed and writes that parent's entry one step down; the
    sift stops exactly at the root or under a parent whose key is
    smaller than the new key, and the new entry is written there.  No
    other entry of the store changes. *)
Theorem InsertLotteryAddress_sifts io (key : WeightedKey) (a : Address)
    (db db' : CDBWrapper) :
  InsertLotteryAddress io key a db = Done true db' →
  let n := GetLotteryHeapSize db in
  n < MAX_RESERVOIR_SIZE ∧
  GetLotteryHeapSize db' = n + 1 ∧
  ∃ k : nat,
    (∀ i, (i < k)%nat →
          climb n i ≠ 0 ∧
          ∃ pv, GetLotterySlot db (climb n (S i)) = Some pv ∧
                (key <= pv.1)%Q ∧
                GetLotterySlot db' (climb n i) = Some pv) ∧
    (climb n k = 0 ∨
     ∃ pv, GetLotterySlot db (parent_pos (climb n k)) = Some pv ∧
           (pv.1 < key)%Q) ∧
    GetLotterySlot db' (climb n k) = Some (key, a) ∧
    (∀ k', k' ≠ K_LOT_SIZE →
           (∀ i, (i ≤ k)%nat → k' ≠ K_LOT_VAL (climb n i)) →
           db' !! k' = db !! k').
Proof.
  intros H. apply InsertLotteryAddress_true_inv in H.
  destruct H as (Hcap & m & q & db1 & Hloop & ->).
  apply InsertLotteryAddress_loop_sifts in Hloop
    as (k & -> & Hmoved & Hstop & Hother).
  set (n := GetLotteryHeapSize db) in *. simpl.
  assert (Hslot : ∀ pos, GetLotterySlot
                           (<[K_LOT_SIZE := V_size (n + 1)]> db) pos
                         = GetLotterySlot db pos).
  { intros pos. unfold GetLotterySlot. by map_reads. }
  assert (Hstrict : ∀ i, (i < k)%nat → climb n k < climb n i).
  { apply climb_strict. intros i Hi. by destruct (Hmoved i Hi). }
  split; [done|]. split.
  { unfold GetLotteryHeapSize, m_db_Read_size.
    rewrite lookup_insert_ne by done. rewrite Hother by done.
    by rewrite lookup_insert_eq. }
  exists k. split; [|split; [|split]].
  - intros i Hi. destruct (Hmoved i Hi) as (Hnz & pv & Hread & Hle & Hwritten).
    split; [done|]. exists pv. rewrite <- Hslot. split; [done|]. split; [done|].
    unfold GetLotterySlot, m_db_Read_lot. rewrite lookup_insert_ne.
    + by rewrite Hwritten.
    + intros [= Heq]. specialize (Hstrict i Hi). lia.
  - destruct Hstop as [?|(pv & Hread & Hlt)]; [by left|].
    right. exists pv. by rewrite <- Hslot.
  - unfold GetLotterySlot. by map_reads.
  - intros k' Hsize Hk'. rewrite lookup_insert_ne.
    + rewrite Hother; [by rewrite lookup_insert_ne|].
      intros i Hi. apply Hk'. lia.
    + intros <-. by apply (Hk' k).
Qed.

Lemma InsertLotteryAddress_sifts_witness :
  let db : CDBWrapper :=
    <[K_LOT_VAL 0 := V_lot ((-1 # 1)%Q, 11)]> (<[K_LOT_SIZE := V_size 1]> ∅) in
  let db' : CDBWrapper :=
    <[K_LOT_VAL 0 := V_lot ((-5 # 1)%Q, 12)]>
      (<[K_LOT_VAL 1 := V_lot ((-1 # 1)%Q, 11)]>
         (<[K_LOT_SIZE := V_size 2]> db)) in
  let n := GetLotteryHeapSize db in
  n < MAX_RESERVOIR_SIZE ∧
  GetLotteryHeapSize db' = n + 1 ∧
  ∃ k : nat,
    (∀ i, (i < k)%nat →
          climb n i ≠ 0 ∧
          ∃ pv, GetLotterySlot db (climb n (S i)) = Some pv ∧
                ((-5 # 1) <= pv.1)%Q ∧
                GetLotterySlot db' (climb n i) = Some pv) ∧
    (climb n k = 0 ∨
     ∃ pv, GetLotterySlot db (parent_pos (climb n k)) = Some pv ∧
           (pv.1 < (-5 # 1))%Q) ∧
    GetLotterySlot db' (climb n k) = Some ((-5 # 1)%Q, 12) ∧
    (∀ k', k' ≠ K_LOT_SIZE →
           (∀ i, (i ≤ k)%nat → k' ≠ K_LOT_VAL (climb n i)) →
           db' !! k' = db !! k').
Proof.
  intros db db'.
  apply (InsertLotteryAddress_sifts io_always (-5 # 1)%Q 12 db db').
  vm_compute. reflexivity.
Defined.

(** C4 at four insertions into the empty store, with the keys -5, -1, -4
    and -3: every call returns [true], and the heap then holds the key -1
    at position 1, the binary parent of position 3, above the key -3 at
    position 3.  The sift loop compared the fourth key with position 0
    only. *)
Theorem InsertLotteryAddress_breaks_min_heap_order :
  ∃ db,
    InsertLotteryAddress_seq io_always
      [((-5 # 1)%Q, 11); ((-1 # 1)%Q, 12); ((-4 # 1)%Q, 13); ((-3 # 1)%Q, 14)] ∅
    = Done true db ∧
    GetLotteryHeapSize db = 4 ∧
    binary_parent 3 = 1 ∧ parent_pos 3 = 0 ∧
    GetLotterySlot db 1 = Some ((-1 # 1)%Q, 12) ∧
    GetLotterySlot db 3 = Some ((-3 # 1)%Q, 14) ∧
    ¬ min_heap_order db.
Proof.
  eexists. split; [vm_compute; reflexivity|].
  split; [vm_compute; reflexivity|].
  split; [reflexivity|]. split; [reflexivity|].
  split; [vm_compute; reflexivity|].
  split; [vm_compute; reflexivity|].
  intros Horder.
  specialize (Horder 3 ((-1 # 1)%Q, 12) ((-3 # 1)%Q, 14)).
  assert (Hle : ((-1 # 1) <= (-3 # 1))%Q).
  { apply Horder; [|vm_compute; reflexivity..].
    split; vm_compute; reflexivity. }
  vm_compute in Hle. apply Hle. reflexivity.
Qed.

(** * Further properties of the store operations *)

(** ** Referral tree store: failure, frame and composition *)

(** The four ways [InsertReferral] ends: each refused write stops the call
    with what the earlier writes left. *)
Lemma InsertReferral_outcomes io r db b db' :
  InsertReferral io r db = Done b db' →
  let db1 := <[K_REFERRALS (codeHash r) := V_referral r]> db in
  let pa := parent_address_of db1 r in
  let db2 := <[K_PARENT_KEY (pubKeyId r) := V_address pa]> db1 in
  let db3 := <[K_CHILDREN pa := V_children (GetChildren db pa ++ [pubKeyId r])]> db2 in
  (b = false ∧ db' = db) ∨ (b = false ∧ db' = db1) ∨
  (b = false ∧ db' = db2) ∨ (b = true ∧ db' = db3).
Proof.
  unfold InsertReferral, bind, gets, ret, m_db_Write. cbv beta.
  destruct (io db _); [|intros [= <- <-]; auto].
  destruct (io _ (K_PARENT_KEY _)); [|intros [= <- <-]; auto].
  destruct (io _ (K_CHILDREN _)); intros [= <- <-]; [|auto].
  do 3 right. split; [done|]. simpl. do 3 f_equal. by map_reads.
Qed.

Lemma RemoveReferral_outcomes io r db b db' :
  RemoveReferral io r db = Done b db' →
  let db1 := delete (K_REFERRALS (codeHash r)) db in
  let pa := parent_address_of db1 r in
  let db2 := delete (K_PARENT_KEY (pubKeyId r)) db1 in
  let db3 := <[K_CHILDREN pa :=
                 V_children (filter (λ c, c ≠ pubKeyId r) (GetChildren db pa))]> db2 in
  (b = false ∧ db' = db) ∨ (b = false ∧ db' = db1) ∨
  (b = false ∧ db' = db2) ∨ (b = true ∧ db' = db3).
Proof.
  unfold RemoveReferral, bind, gets, ret, m_db_Write, m_db_Erase. cbv beta.
  destruct (io db _); [|intros [= <- <-]; auto].
  destruct (io _ (K_PARENT_KEY _)); [|intros [= <- <-]; auto].
  destruct (io _ (K_CHILDREN _)); intros [= <- <-]; [|auto].
  do 3 right. split; [done|]. simpl. do 3 f_equal. by map_reads.
Qed.

(** X1: whatever [InsertReferral r] returns, it leaves alone every entry
    of the store but the referral record of [r], the parent entry of its
    address and the children list of the parent address it resolved: all
    other referrals, parent entries and children lists, every ANV record
    and the lottery heap are as before. *)
Theorem InsertReferral_frame io (r : Referral) (db db' : CDBWrapper) (b : bool) :
  InsertReferral io r db = Done b db' →
  ∀ k, k ≠ K_REFERRALS (codeHash r) →
       k ≠ K_PARENT_KEY (pubKeyId r) →
       k ≠ K_CHILDREN
             (parent_address_of
                (<[K_REFERRALS (codeHash r) := V_referral r]> db) r) →
       db' !! k = db !! k.
Proof.
  intros H k H1 H2 H3. apply InsertReferral_outcomes in H. simpl in H.
  destruct H as [[_ ->]|[[_ ->]|[[_ ->]|[_ ->]]]];
    by rewrite ?lookup_insert_ne by done.
Qed.

Lemma InsertReferral_frame_witness :
  example_db_child !! K_PARENT_KEY 1 = example_db_root !! K_PARENT_KEY 1.
Proof.
  apply (InsertReferral_frame io_always example_child example_db_root
           example_db_child true).
  - vm_compute. reflexivity.
  - discriminate.
  - vm_compute. discriminate.
  - vm_compute. discriminate.
Defined.

(** X2: a failed [InsertReferral r] is not rolled back.  When it returns
    [false], no children list has changed, and the store is as before, or
    the referral is already readable under its code hash while its
    address is in no children list it was not in before. *)
Theorem InsertReferral_not_rolled_back io (r : Referral) (db db' : CDBWrapper) :
  InsertReferral io r db = Done false db' →
  (∀ x, GetChildren db' x = GetChildren db x) ∧
  (db' = db ∨ GetReferral db' (codeHash r) = Some r).
Proof.
  intros H. apply InsertReferral_outcomes in H. simpl in H.
  destruct H as [[_ ->]|[[_ ->]|[[_ ->]|[? _]]]]; [| | |done].
  - auto.
  - split; [intros x; by map_reads|]. right. by map_reads.
  - split; [intros x; by map_reads|]. right. by map_reads.
Qed.

Lemma InsertReferral_not_rolled_back_witness :
  let r := mkReferral 7 1 0 in
  let db' : CDBWrapper := <[K_REFERRALS 7 := V_referral r]> ∅ in
  (∀ x, GetChildren db' x = GetChildren ∅ x) ∧
  (db' = ∅ ∨ GetReferral db' (codeHash r) = Some r).
Proof.
  intros r db'.
  apply (InsertReferral_not_rolled_back
           (λ _ k, bool_decide (k ≠ K_PARENT_KEY 1)) r ∅ db').
  vm_compute. reflexivity.
Defined.

(** X3: children lists are not deduplicated.  Two successful insertions
    of the same referral, one after the other, resolve the same parent
    address and leave the address of the referral twice at the end of
    that parent's children list. *)
Theorem InsertReferral_twice_duplicates io (r : Referral)
    (db db1 db2 : CDBWrapper) :
  InsertReferral io r db = Done true db1 →
  InsertReferral io r db1 = Done true db2 →
  parent_address_of db2 r = parent_address_of db1 r ∧
  GetChildren db2 (parent_address_of db1 r)
  = GetChildren db (parent_address_of db1 r) ++ [pubKeyId r; pubKeyId r].
Proof.
  intros H1 H2.
  apply InsertReferral_reads in H1. apply InsertReferral_reads in H2.
  simpl in H1, H2.
  destruct H1 as (Hsame1 & Hr1 & _ & Hch1).
  destruct H2 as (Hsame2 & _ & _ & Hch2).
  set (db0 := <[K_REFERRALS (codeHash r) := V_referral r]> db) in *.
  set (db10 := <[K_REFERRALS (codeHash r) := V_referral r]> db1) in *.
  assert (Hpa1 : parent_address_of db1 r = parent_address_of db0 r).
  { unfold parent_address_of. by rewrite Hsame1. }
  assert (Hsame10 : ∀ h, GetReferral db10 h = GetReferral db1 h).
  { intros h. unfold db10. destruct (decide (h = codeHash r)) as [->|Hne].
    - rewrite Hr1. by map_reads.
    - by map_reads. }
  assert (Hpa10 : parent_address_of db10 r = parent_address_of db0 r).
  { unfold parent_address_of. by rewrite Hsame10, Hsame1. }
  assert (Hpa2 : parent_address_of db2 r = parent_address_of db0 r).
  { unfold parent_address_of. by rewrite Hsame2, Hsame10, Hsame1. }
  rewrite Hpa10 in Hch2. rewrite Hpa1, Hpa2. split; [done|].
  by rewrite Hch2, Hch1, <- app_assoc.
Qed.

Lemma InsertReferral_twice_duplicates_witness :
  let db2 : CDBWrapper := <[K_CHILDREN 0 := V_children [1; 1]]> example_db_root in
  parent_address_of db2 example_root = parent_address_of example_db_root example_root ∧
  GetChildren db2 (parent_address_of example_db_root example_root)
  = GetChildren ∅ (parent_address_of example_db_root example_root) ++ [1; 1].
Proof.
  intros db2.
  apply (InsertReferral_twice_duplicates io_always example_root ∅
           example_db_root db2).
  - vm_compute. reflexivity.
  - vm_compute. reflexivity.
Defined.

(** X4: after a successful [RemoveReferral r], the code hash of [r] names
    no referral and the address of [r] has no parent entry, whether or
    not they were stored before; every occurrence of the address is gone
    from the children list of the parent address resolved once the record
    of [r] is erased, and no other children list has changed. *)
Theorem RemoveReferral_postcondition io (r : Referral) (db db' : CDBWrapper) :
  RemoveReferral io r db = Done true db' →
  let pa := parent_address_of (delete (K_REFERRALS (codeHash r)) db) r in
  GetReferral db' (codeHash r) = None ∧
  ReferralCodeExists db' (codeHash r) = false ∧
  GetReferrer db' (pubKeyId r) = None ∧
  WalletIdExists db' (pubKeyId r) = false ∧
  (GetChildren db' pa = filter (λ c, c ≠ pubKeyId r) (GetChildren db pa)) ∧
  (pubKeyId r ∉ GetChildren db' pa) ∧
  ∀ x, x ≠ pa → GetChildren db' x = GetChildren db x.
Proof.
  intros H. apply RemoveReferral_success in H. simpl in *.
  set (pa := parent_address_of _ r) in *.
  assert (Hch : GetChildren db' pa
                = filter (λ c, c ≠ pubKeyId r) (GetChildren db pa)).
  { rewrite H. by map_reads. }
  split; [rewrite H; by map_reads|].
  split.
  { unfold ReferralCodeExists, m_db_Exists. rewrite H.
    rewrite lookup_insert_ne, lookup_delete_ne, lookup_delete_eq by done.
    apply bool_decide_eq_false. by intros [? ?]. }
  split; [rewrite H; by map_reads|].
  split.
  { unfold WalletIdExists, m_db_Exists. rewrite H.
    rewrite lookup_insert_ne, lookup_delete_eq by done.
    apply bool_decide_eq_false. by intros [? ?]. }
  split; [done|]. split.
  - rewrite Hch. intros Hin. apply list_elem_of_filter in Hin as [Hne _]. done.
  - intros x Hx. rewrite H. by map_reads.
Qed.

Lemma RemoveReferral_postcondition_witness :
  let db' : CDBWrapper :=
    <[K_CHILDREN 1 := V_children []]>
      (delete (K_PARENT_KEY 2) (delete (K_REFERRALS 101) example_db_child)) in
  let pa := parent_address_of (delete (K_REFERRALS 101) example_db_child)
              example_child in
  GetReferral db' (codeHash example_child) = None ∧
  ReferralCodeExists db' (codeHash example_child) = false ∧
  GetReferrer db' (pubKeyId example_child) = None ∧
  WalletIdExists db' (pubKeyId example_child) = false ∧
  (GetChildren db' pa
   = filter (λ c, c ≠ pubKeyId example_child) (GetChildren example_db_child pa)) ∧
  (pubKeyId example_child ∉ GetChildren db' pa) ∧
  ∀ x, x ≠ pa → GetChildren db' x = GetChildren example_db_child x.
Proof.
  intros db'.
  apply (RemoveReferral_postcondition io_always example_child
           example_db_child db').
  vm_compute. reflexivity.
Defined.

(** X5: the order of removals matters.  When a referral [p] and then a
    referral [r] invited by [p] are inserted, and [p] is removed before
    [r], the removal of [r] no longer resolves [p] and edits the children
    list of the default-constructed address: the address of [r] stays in
    the children list of the address of [p], though it has no parent
    entry any more. *)
Theorem RemoveReferral_parent_first_leaves_child io (p r : Referral)
    (db0 db1 db2 db3 db4 : CDBWrapper) :
  previousReferral r = codeHash p →
  codeHash r ≠ codeHash p →
  pubKeyId r ≠ pubKeyId p →
  pubKeyId p ≠ Address_default →
  InsertReferral io p db0 = Done true db1 →
  InsertReferral io r db1 = Done true db2 →
  RemoveReferral io p db2 = Done true db3 →
  RemoveReferral io r db3 = Done true db4 →
  pubKeyId r ∈ GetChildren db4 (pubKeyId p) ∧
  GetReferrer db4 (pubKeyId r) = None ∧
  GetReferral db4 (codeHash p) = None.
Proof.
  intros Hprev Hcode Hpk Hdef H1 H2 H3 H4.
  apply InsertReferral_reads in H1. simpl in H1. destruct H1 as (_ & Hp1 & _).
  apply InsertReferral_reads in H2. simpl in H2.
  destruct H2 as (Hsame2 & _ & _ & Hch2).
  assert (Hpa : parent_address_of
                  (<[K_REFERRALS (codeHash r) := V_referral r]> db1) r
                = pubKeyId p).
  { unfold parent_address_of. rewrite Hprev.
    replace (GetReferral _ (codeHash p)) with (GetReferral db1 (codeHash p))
      by (by map_reads).
    by rewrite Hp1. }
  rewrite Hpa in Hch2.
  assert (Hin2 : pubKeyId r ∈ GetChildren db2 (pubKeyId p)).
  { rewrite Hch2. apply elem_of_app. right. by apply list_elem_of_singleton. }
  pose proof (RemoveReferral_success _ _ _ _ H3) as Hdb3. simpl in Hdb3.
  set (A := parent_address_of (delete (K_REFERRALS (codeHash p)) db2) p) in *.
  assert (Hin3 : pubKeyId r ∈ GetChildren db3 (pubKeyId p)).
  { rewrite Hdb3. destruct (decide (A = pubKeyId p)) as [->|HA].
    - map_reads. simpl. apply list_elem_of_filter. split; [done|].
      revert Hin2. by unfold_reads.
    - revert Hin2. by map_reads. }
  assert (Hnone3 : GetReferral db3 (codeHash p) = None).
  { rewrite Hdb3. by map_reads. }
  pose proof (RemoveReferral_success _ _ _ _ H4) as Hdb4. simpl in Hdb4.
  assert (HB : parent_address_of (delete (K_REFERRALS (codeHash r)) db3) r
               = Address_default).
  { unfold parent_address_of. rewrite Hprev.
    replace (GetReferral _ (codeHash p)) with (GetReferral db3 (codeHash p))
      by (by map_reads).
    by rewrite Hnone3. }
  rewrite HB in Hdb4. rewrite Hdb4. split; [|split].
  - revert Hin3. by map_reads.
  - by map_reads.
  - revert Hnone3. by map_reads.
Qed.

Lemma RemoveReferral_parent_first_leaves_child_witness :
  let db3 : CDBWrapper :=
    <[K_CHILDREN 0 := V_children []]>
      (delete (K_PARENT_KEY 1) (delete (K_REFERRALS 100) example_db_child)) in
  let db4 : CDBWrapper :=
    <[K_CHILDREN 0 := V_children []]>
      (delete (K_PARENT_KEY 2) (delete (K_REFERRALS 101) db3)) in
  pubKeyId example_child ∈ GetChildren db4 (pubKeyId example_root) ∧
  GetReferrer db4 (pubKeyId example_child) = None ∧
  GetReferral db4 (codeHash example_root) = None.
Proof.
  intros db3 db4.
  apply (RemoveReferral_parent_first_leaves_child io_always
           example_root example_child ∅ example_db_root example_db_child
           db3 db4); try done; vm_compute; reflexivity.
Defined.

(** ** ANV aggregation: frame, failure and composition *)

Lemma UpdateANV_loop_frame io ty start v n :
  ∀ s db r db',
    loop_nat n (UpdateANV_round io ty start v) s db = Done r db' →
    ∀ k, (∀ x, k ≠ K_ANV x) → db' !! k = db !! k.
Proof.
  induction n as [|n IH]; intros [[a|] levels] db r db' H k Hk;
    try (injection H as <- <-; done); rewrite loop_nat_S in H.
  rewrite UpdateANV_round_Some in H.
  destruct (levels <? MAX_LEVELS); [|by injection H as <- <-]. simpl in H.
  destruct (sum_in_reach _); simpl in H; [|discriminate H].
  destruct (fits_nonneg _); simpl in H; [|discriminate H].
  destruct (io db (K_ANV a)); [|by injection H as <- <-].
  rewrite (IH _ _ _ _ H k Hk). by rewrite lookup_insert_ne.
Qed.

(** What any returning [UpdateANV] says about its loop. *)
Lemma UpdateANV_Done_inv io ty start v db b db' :
  UpdateANV io ty start v db = Done b db' →
  ∃ n r, loop_nat n (UpdateANV_round io ty start v) (Some start, 0) db
         = Done (Stop r) db' ∧
         match r with
         | LoopEnd (_, l') => b = true ∧ l' < MAX_LEVELS
         | Return b' => b = b'
         end.
Proof.
  unfold UpdateANV, bind. rewrite loop_pos_nat.
  generalize (Pos.to_nat (2 ^ 64)). intros n.
  destruct (loop_nat _ _ _ db) as [[s|[[a' l']|b0]] db1|why] eqn:Hloop;
    simpl; try discriminate.
  - unfold assert. destruct (N.ltb_spec l' MAX_LEVELS) as [Hl|Hl];
      simpl; [|discriminate].
    intros [= <- <-]. exists n, (LoopEnd (a', l')). auto.
  - intros [= <- <-]. exists n, (Return b0). auto.
Qed.

(** X6: whatever [UpdateANV] returns, it has written ANV records only: the
    referral records, the parent index, the children lists and the
    lottery heap are as before. *)
Theorem UpdateANV_frame io (addressType : N) (a : Address) (v : CAmount)
    (db db' : CDBWrapper) (b : bool) :
  UpdateANV io addressType a v db = Done b db' →
  (∀ k, (∀ x, k ≠ K_ANV x) → db' !! k = db !! k) ∧
  (∀ h, GetReferral db' h = GetReferral db h) ∧
  (∀ x, GetReferrer db' x = GetReferrer db x) ∧
  (∀ x, GetChildren db' x = GetChildren db x) ∧
  GetLotteryHeapSize db' = GetLotteryHeapSize db ∧
  (∀ pos, GetLotterySlot db' pos = GetLotterySlot db pos).
Proof.
  intros H. apply UpdateANV_Done_inv in H as (n & r & Hloop & _).
  pose proof (UpdateANV_loop_frame _ _ _ _ _ _ _ _ _ Hloop) as Hframe.
  split; [done|]. unfold GetLotterySlot. unfold_reads.
  repeat split; intros; by rewrite Hframe.
Qed.

Lemma UpdateANV_frame_witness :
  (∀ k, (∀ x, k ≠ K_ANV x) → example_db_anv !! k = example_db_child !! k) ∧
  (∀ h, GetReferral example_db_anv h = GetReferral example_db_child h) ∧
  (∀ x, GetReferrer example_db_anv x = GetReferrer example_db_child x) ∧
  (∀ x, GetChildren example_db_anv x = GetChildren example_db_child x) ∧
  GetLotteryHeapSize example_db_anv = GetLotteryHeapSize example_db_child ∧
  (∀ pos, GetLotterySlot example_db_anv pos = GetLotterySlot example_db_child pos).
Proof.
  apply (UpdateANV_frame io_always 1 2 100%Z example_db_child example_db_anv true).
  vm_compute. reflexivity.
Defined.

(** The loop along the first part of a chain, every write carried out:
    when the running total stays in range and at or above zero on [ys]
    and would fall below zero at the next address, the amount assertion
    fails. *)
Lemma UpdateANV_loop_negative io ty start v ys :
  (∀ db k, io db k = true) →
  ∀ a xs x zs db n levels,
    referrer_chain db a xs →
    a :: xs = ys ++ x :: zs →
    (∀ y, y ∈ ys → in_int64 (stored_amount db y + v) = true ∧
                   (0 ≤ stored_amount db y + v)%Z) →
    in_int64 (stored_amount db x + v) = true →
    (stored_amount db x + v < 0)%Z →
    (length ys < n)%nat →
    levels + N.of_nat (length ys) < MAX_LEVELS →
    loop_nat n (UpdateANV_round io ty start v) (Some a, levels) db
    = Fatal NegativeANV.
Proof.
  intros Hio. induction ys as [|y ys IH];
    intros a xs x zs db n levels Hchain Heq Hys Hrange Hneg Hn Hlev;
    simpl in Heq; injection Heq as -> ->.
  all: destruct n as [|n]; [simpl in Hn; lia|].
  all: rewrite loop_nat_S, UpdateANV_round_Some.
  all: destruct (N.ltb_spec levels MAX_LEVELS) as [_|?]; [|lia]; simpl.
  all: rewrite new_record_amount.
  - fold (stored_amount db x).
    rewrite (in_int64_reach _ Hrange), (fits_nonneg_in_int64 _ Hrange). simpl.
    destruct (Z.leb_spec 0 (stored_amount db x + v)); [lia|done].
  - destruct (Hys y ltac:(left)) as [Hry Hpy].
    fold (stored_amount db y).
    rewrite (in_int64_reach _ Hry), (fits_nonneg_in_int64 _ Hry). simpl.
    destruct (Z.leb_spec 0 (stored_amount db y + v)); [|lia]. simpl.
    rewrite Hio.
    pose proof (referrer_chain_NoDup _ _ _ Hchain) as Hnd.
    apply NoDup_cons in Hnd as [Hnotin _].
    inversion Hchain as [? Hnil Hempty|? p rest Hp Hrest Hcons]; subst;
      [by destruct ys|].
    rewrite Hp.
    assert (Hfresh : ∀ z, z ∈ ys ++ x :: zs →
              stored_amount
                (<[K_ANV y := V_anv (new_record ty start v levels (anv_record db y))]> db) z
              = stored_amount db z).
    { intros z Hz. rewrite stored_amount_insert, decide_False; [done|].
      intros ->. done. }
    apply (IH p rest x zs); simpl in *; try lia.
    + eapply referrer_chain_ext; [|exact Hrest].
      intros z. apply GetReferrer_insert_anv.
    + done.
    + intros z Hz. rewrite Hfresh; [apply Hys; by right|].
      apply elem_of_app. by left.
    + rewrite Hfresh; [done|]. apply elem_of_app. right. by left.
    + rewrite Hfresh; [done|]. apply elem_of_app. right. by left.
Qed.

(** X7: a debit is fatal wherever along the chain the total would fall
    below zero.  With every write carried out, when adding the change
    keeps the amounts of the first addresses [ys] of the chain in range
    and at or above zero and takes the amount of the next address [x]
    below zero, [UpdateANV] ends in the assertion [amount >= 0] and
    returns nothing. *)
Theorem UpdateANV_debit_beyond_credit io (addressType : N) (a : Address)
    (v : CAmount) (xs ys zs : list Address) (x : Address) (db : CDBWrapper) :
  (∀ db k, io db k = true) →
  referrer_chain db a xs →
  a :: xs = ys ++ x :: zs →
  N.of_nat (length ys) < MAX_LEVELS →
  (∀ y, y ∈ ys → in_int64 (stored_amount db y + v) = true ∧
                 (0 ≤ stored_amount db y + v)%Z) →
  in_int64 (stored_amount db x + v) = true →
  (stored_amount db x + v < 0)%Z →
  UpdateANV io addressType a v db = Fatal NegativeANV.
Proof.
  intros Hio Hchain Heq Hlen Hys Hrange Hneg.
  unfold UpdateANV, bind. rewrite loop_pos_nat.
  pose proof (positive_nat_N (2 ^ 64)) as Hn.
  generalize dependent (Pos.to_nat (2 ^ 64)). intros n Hn.
  rewrite (UpdateANV_loop_negative io addressType a v ys Hio a xs x zs db n 0);
    try done.
  unfold MAX_LEVELS in Hlen. change (N.pos (2 ^ 64)) with (2 ^ 64) in Hn. lia.
Qed.

Lemma UpdateANV_debit_beyond_credit_witness :
  UpdateANV io_always 1 2 (-50)%Z
    (<[K_ANV 1 := V_anv (0, 0, 30%Z)]>
       (<[K_ANV 2 := V_anv (1, 2, 100%Z)]> example_db_child))
  = Fatal NegativeANV.
Proof.
  apply (UpdateANV_debit_beyond_credit io_always 1 2 (-50)%Z [1; 0] [2] [0] 1).
  - done.
  - apply chain_step; [reflexivity|].
    apply chain_step; [reflexivity|].
    apply chain_root. reflexivity.
  - reflexivity.
  - vm_compute. reflexivity.
  - intros y Hy. apply list_elem_of_singleton in Hy as ->.
    split; vm_compute; [reflexivity|discriminate].
  - vm_compute. reflexivity.
  - vm_compute. reflexivity.
Defined.

(** A loop that is left through its guard below the level bound went
    through a chain that ends, one round per address. *)
Lemma UpdateANV_loop_chain_length io ty start v n :
  ∀ a levels db a' l' db',
    loop_nat n (UpdateANV_round io ty start v) (Some a, levels) db
      = Done (Stop (LoopEnd (a', l'))) db' →
    l' < MAX_LEVELS →
    ∃ xs, referrer_chain db a xs ∧ l' = levels + N.of_nat (length (a :: xs)).
Proof.
  induction n as [|n IH]; intros a levels db a' l' db' H Hl';
    [discriminate H|].
  rewrite loop_nat_S, UpdateANV_round_Some in H.
  destruct (N.ltb_spec levels MAX_LEVELS) as [Hg|Hg];
    [|injection H as <- <- <-; lia].
  simpl in H.
  destruct (sum_in_reach _); simpl in H; [|discriminate H].
  destruct (fits_nonneg _); simpl in H; [|discriminate H].
  destruct (io db (K_ANV a)); [|discriminate H].
  destruct (GetReferrer db a) as [p|] eqn:Hp.
  - eapply IH in H as (xs & Hxs & ->); [|done]. exists (p :: xs). split.
    + apply chain_step; [done|].
      eapply referrer_chain_ext; [|exact Hxs].
      intros x. symmetry. apply GetReferrer_insert_anv.
    + simpl. lia.
  - exists []. split; [by apply chain_root|].
    destruct n as [|n]; [discriminate H|].
    rewrite loop_nat_S, UpdateANV_round_None in H.
    injection H as <- <- <-. simpl. lia.
Qed.

(** X8: cycle safety.  [UpdateANV] returns [true] only when the chain of
    referrers of the start address ends, after fewer than [MAX_LEVELS]
    addresses; on a start address whose chain runs into a cycle it never
    returns [true]. *)
Theorem UpdateANV_true_only_on_ending_chain io (addressType : N) (a : Address)
    (v : CAmount) (db db' : CDBWrapper) :
  UpdateANV io addressType a v db = Done true db' →
  ∃ xs, referrer_chain db a xs ∧ N.of_nat (length (a :: xs)) < MAX_LEVELS.
Proof.
  intros H. apply UpdateANV_true_inv in H as (n & a' & l' & Hloop & Hl').
  destruct (UpdateANV_loop_chain_length _ _ _ _ _ _ _ _ _ _ _ Hloop Hl')
    as (xs & Hchain & ->).
  exists xs. split; [done|lia].
Qed.

Lemma UpdateANV_true_only_on_ending_chain_witness :
  ∃ xs, referrer_chain example_db_child 2 xs ∧
        N.of_nat (length (2 :: xs)) < MAX_LEVELS.
Proof.
  apply (UpdateANV_true_only_on_ending_chain io_always 1 2 100%Z
           example_db_child example_db_anv).
  vm_compute. reflexivity.
Defined.

(** X9: nothing keeps a referral from naming itself.  A successful
    [InsertReferral] of a referral whose previous referral is its own
    code hash makes its address its own parent, and from then on no
    [UpdateANV] that starts at that address returns [true]. *)
Theorem InsertReferral_self_parent_blocks_UpdateANV io (r : Referral)
    (db db1 : CDBWrapper) :
  previousReferral r = codeHash r →
  InsertReferral io r db = Done true db1 →
  GetReferrer db1 (pubKeyId r) = Some (pubKeyId r) ∧
  pubKeyId r ∈ GetChildren db1 (pubKeyId r) ∧
  ∀ io' addressType v db2,
    UpdateANV io' addressType (pubKeyId r) v db1 ≠ Done true db2.
Proof.
  intros Hself H. apply InsertReferral_reads in H. simpl in H.
  destruct H as (_ & _ & Hpk & Hch).
  assert (Hpa : parent_address_of
                  (<[K_REFERRALS (codeHash r) := V_referral r]> db) r
                = pubKeyId r).
  { unfold parent_address_of. rewrite Hself. by map_reads. }
  rewrite Hpa in Hpk, Hch.
  assert (Hparent : GetReferrer db1 (pubKeyId r) = Some (pubKeyId r)).
  { unfold GetReferrer, m_db_Read_address. by rewrite Hpk. }
  split; [done|]. split.
  { rewrite Hch. apply elem_of_app. right. by apply list_elem_of_singleton. }
  intros io' ty v db2 Htrue.
  apply UpdateANV_true_inv in Htrue as (n & a' & l' & Hloop & Hl').
  destruct (UpdateANV_loop_chain _ _ _ _ _ _ _ _ _ _ _ Hloop Hl') as [xs Hxs].
  pose proof (referrer_chain_NoDup _ _ _ Hxs) as Hnd.
  inversion Hxs as [? Hnone|? p rest Hp Hrest]; subst; [congruence|].
  assert (p = pubKeyId r) as -> by congruence.
  apply NoDup_cons in Hnd as [Hnotin _]. apply Hnotin. by left.
Qed.

Lemma InsertReferral_self_parent_blocks_UpdateANV_witness :
  let r := mkReferral 5 9 5 in
  let db1 : CDBWrapper :=
    <[K_CHILDREN 9 := V_children [9]]>
      (<[K_PARENT_KEY 9 := V_address 9]>
         (<[K_REFERRALS 5 := V_referral r]> ∅)) in
  GetReferrer db1 (pubKeyId r) = Some (pubKeyId r) ∧
  pubKeyId r ∈ GetChildren db1 (pubKeyId r) ∧
  ∀ io' addressType v db2,
    UpdateANV io' addressType (pubKeyId r) v db1 ≠ Done true db2.
Proof.
  intros r db1.
  apply (InsertReferral_self_parent_blocks_UpdateANV io_always r ∅ db1).
  - reflexivity.
  - vm_compute. reflexivity.
Defined.

Lemma credit_nil v tot x : credit [] v tot x = tot x.
Proof. unfold credit. by rewrite decide_False by apply not_elem_of_nil. Qed.

(** The loop along a chain that ends, when a refused write makes the
    function return: the write refused is that of an address [z] of the
    chain, on the store that is returned; the addresses before [z] have
    a record with the change added, and nothing else differs from the
    store at the start. *)
Lemma UpdateANV_loop_refused io ty start v xs :
  ∀ a db n levels b db',
    referrer_chain db a xs →
    loop_nat n (UpdateANV_round io ty start v) (Some a, levels) db
      = Done (Stop (Return b)) db' →
    ∃ ys z zs,
      a :: xs = ys ++ z :: zs ∧
      b = false ∧
      io db' (K_ANV z) = false ∧
      (∀ y, y ∈ ys → is_Some (GetANV db' y)) ∧
      (∀ x, stored_amount db' x = credit ys v (stored_amount db) x) ∧
      (∀ k, (∀ y, y ∈ ys → k ≠ K_ANV y) → db' !! k = db !! k).
Proof.
  induction xs as [|p xs IH]; intros a db n levels b db' Hchain H.
  all: pose proof (referrer_chain_NoDup _ _ _ Hchain) as Hnd.
  all: destruct n as [|n]; [discriminate H|].
  all: rewrite loop_nat_S, UpdateANV_round_Some in H.
  all: destruct (levels <? MAX_LEVELS); [|discriminate H]; simpl in H.
  all: destruct (sum_in_reach _); simpl in H; [|discriminate H].
  all: destruct (fits_nonneg _); simpl in H; [|discriminate H].
  all: destruct (io db (K_ANV a)) eqn:Hio;
       [|injection H as <- <-; exists [], a; eexists;
         split; [done|]; split; [done|]; split; [done|];
         split; [by intros y ?%elem_of_nil|]; split; [|done];
         intros x; by rewrite credit_nil].
  - inversion Hchain as [a0 Ha|]; subst. rewrite Ha in H.
    destruct n as [|n]; discriminate H.
  - inversion Hchain as [|a0 p0 xs0 Ha Hp]; subst. rewrite Ha in H.
    apply NoDup_cons in Hnd as [Hnotin _].
    eapply IH in H as (ys & z & zs & Heq & Hb & Hz & Hrec & Ham & Hframe);
      [|eapply referrer_chain_ext; [|exact Hp];
        intros x; apply GetReferrer_insert_anv].
    assert (Hays : a ∉ ys).
    { intros Hin. apply Hnotin. rewrite Heq. apply elem_of_app. by left. }
    exists (a :: ys), z, zs.
    split; [by rewrite Heq|]. split; [done|]. split; [done|].
    split; [|split].
    + intros y [->|Hy]%elem_of_cons; [|by apply Hrec].
      unfold GetANV, m_db_Read_anv. rewrite Hframe.
      * by rewrite lookup_insert_eq.
      * intros y Hy [= ->]. done.
    + intros x. rewrite Ham. unfold credit.
      rewrite stored_amount_insert, new_record_amount.
      destruct (decide (x = a)) as [->|Hne].
      * rewrite decide_False by done.
        by rewrite decide_True by (by left).
      * destruct (decide (x ∈ ys)) as [Hin|Hout].
        -- by rewrite decide_True by (by right).
        -- rewrite decide_False; [done|].
           intros Hin. apply elem_of_cons in Hin as [?|?]; done.
    + intros k Hk. rewrite Hframe by (intros y Hy; apply Hk; by right).
      apply lookup_insert_ne. intros Hka. by apply (Hk a); [left|].
Qed.

(** X10: a refused write stops [UpdateANV] without rollback.  When the
    call returns [false] on a chain that ends, the chain splits at an
    address [z] whose record the store returned refuses to write; every
    address before [z], counted from the start address, has a record
    and its amount has been credited, every other amount is as before
    and no entry but the records of the addresses before [z] differs
    from the store at the start. *)
Theorem UpdateANV_false_credits_prefix io (addressType : N) (a : Address)
    (v : CAmount) (xs : list Address) (db db' : CDBWrapper) :
  referrer_chain db a xs →
  UpdateANV io addressType a v db = Done false db' →
  ∃ ys z zs,
    a :: xs = ys ++ z :: zs ∧
    io db' (K_ANV z) = false ∧
    (∀ y, y ∈ ys → is_Some (GetANV db' y)) ∧
    (∀ x, stored_amount db' x = credit ys v (stored_amount db) x) ∧
    (∀ k, (∀ y, y ∈ ys → k ≠ K_ANV y) → db' !! k = db !! k).
Proof.
  intros Hchain H. apply UpdateANV_Done_inv in H as (n & r & Hloop & Hr).
  destruct r as [[a' l']|b]; [by destruct Hr|].
  destruct (UpdateANV_loop_refused _ _ _ _ _ _ _ _ _ _ _ Hchain Hloop)
    as (ys & z & zs & Heq & _ & Hz & Hrec & Ham & Hframe).
  by exists ys, z, zs.
Qed.

Lemma UpdateANV_false_credits_prefix_witness :
  let io : CDBWrapper → DBKey → bool := λ _ k, bool_decide (k ≠ K_ANV 1) in
  let db' : CDBWrapper := <[K_ANV 2 := V_anv (1, 2, 100%Z)]> example_db_child in
  ∃ ys z zs,
    2 :: [1; 0] = ys ++ z :: zs ∧
    io db' (K_ANV z) = false ∧
    (∀ y, y ∈ ys → is_Some (GetANV db' y)) ∧
    (∀ x, stored_amount db' x = credit ys 100 (stored_amount example_db_child) x) ∧
    (∀ k, (∀ y, y ∈ ys → k ≠ K_ANV y) → db' !! k = example_db_child !! k).
Proof.
  intros io db'.
  apply (UpdateANV_false_credits_prefix io 1 2 100%Z [1; 0]
           example_db_child db').
  - exact example_chain.
  - vm_compute. reflexivity.
Defined.

(** X11: a credit followed by the same debit gives back every amount.
    When [UpdateANV] with change [v] and then [UpdateANV] with change
    [- v] at the same start address both return [true], every stored
    amount is what it was, while the start address and its ancestors now
    all have a record: records are created and never deleted. *)
Theorem UpdateANV_credit_then_debit io (ty1 ty2 : N) (a : Address)
    (v : CAmount) (xs : list Address) (db db1 db2 : CDBWrapper) :
  referrer_chain db a xs →
  UpdateANV io ty1 a v db = Done true db1 →
  UpdateANV io ty2 a (- v)%Z db1 = Done true db2 →
  (∀ x, stored_amount db2 x = stored_amount db x) ∧
  (∀ x, x ∈ a :: xs → is_Some (GetANV db2 x)).
Proof.
  intros Hchain H1 H2.
  destruct (UpdateANV_true_amounts _ _ _ _ _ _ _ Hchain H1) as [Hp1 Ham1].
  assert (Hchain1 : referrer_chain db1 a xs)
    by (by eapply referrer_chain_ext).
  destruct (UpdateANV_true_amounts _ _ _ _ _ _ _ Hchain1 H2) as [_ Ham2].
  split.
  - intros x. rewrite Ham2. unfold credit. rewrite Ham1. unfold credit.
    destruct (decide (x ∈ a :: xs)); lia.
  - apply UpdateANV_true_inv in H2 as (n & a' & l' & Hloop & Hl').
    destruct (UpdateANV_loop_success _ _ _ _ _ _ _ _ _ _ _ _ Hchain1 Hloop Hl')
      as (_ & Hhead & Htail).
    intros x Hx. apply elem_of_cons in Hx as [->|Hx].
    + rewrite (GetANV_lookup _ _ _ Hhead). eauto.
    + rewrite (GetANV_lookup _ _ _ (Htail x Hx)). eauto.
Qed.

Lemma UpdateANV_credit_then_debit_witness :
  let db2 : CDBWrapper :=
    <[K_ANV 0 := V_anv (0, 0, 0%Z)]>
      (<[K_ANV 1 := V_anv (0, 0, 0%Z)]>
         (<[K_ANV 2 := V_anv (2, 2, 0%Z)]> example_db_child)) in
  (∀ x, stored_amount db2 x = stored_amount example_db_child x) ∧
  (∀ x, x ∈ [2; 1; 0] → is_Some (GetANV db2 x)).
Proof.
  intros db2.
  apply (UpdateANV_credit_then_debit io_always 1 2 2 100%Z [1; 0]
           example_db_child example_db_anv db2).
  - exact example_chain.
  - vm_compute. reflexivity.
  - vm_compute. reflexivity.
Defined.

(** X12: an ancestor that had no ANV record gets one through
    propagation, with address type 0 and the default-constructed address
    as origin and the change as amount; such a record is not of a
    rewardable type. *)
Theorem UpdateANV_creates_unstamped_ancestor io (addressType : N)
    (a x : Address) (v : CAmount) (xs : list Address) (db db' : CDBWrapper) :
  referrer_chain db a xs →
  x ∈ xs →
  GetANV db x = None →
  UpdateANV io addressType a v db = Done true db' →
  GetANV db' x = Some (mkAddressANV 0 Address_default v) ∧
  ¬ rewardable (mkAddressANV 0 Address_default v).
Proof.
  intros Hchain Hx Hnone H.
  apply UpdateANV_true_inv in H as (n & a' & l' & Hloop & Hl').
  destruct (UpdateANV_loop_success _ _ _ _ _ _ _ _ _ _ _ _ Hchain Hloop Hl')
    as (_ & _ & Htail).
  split.
  - rewrite (GetANV_lookup _ _ _ (Htail x Hx)).
    unfold anv_record. unfold GetANV in Hnone.
    destruct (m_db_Read_anv db (K_ANV x)); [discriminate Hnone|]. reflexivity.
  - unfold rewardable. simpl. intros [?|?]; discriminate.
Qed.

Lemma UpdateANV_creates_unstamped_ancestor_witness :
  GetANV example_db_anv 1 = Some (mkAddressANV 0 Address_default 100%Z) ∧
  ¬ rewardable (mkAddressANV 0 Address_default 100%Z).
Proof.
  apply (UpdateANV_creates_unstamped_ancestor io_always 1 2 1 100%Z [1; 0]
           example_db_child example_db_anv).
  - exact example_chain.
  - apply elem_of_cons. by left.
  - reflexivity.
  - vm_compute. reflexivity.
Defined.

(** ** Scans: what is listed *)

Lemma GetANV_Some db a r :
  GetANV db a = Some r ↔
  ∃ t, db !! K_ANV a = Some (V_anv t) ∧ r = to_AddressANV t.
Proof.
  unfold GetANV, m_db_Read_anv. split.
  - destruct (db !! K_ANV a) as [[]|]; simpl; intros [= <-]; eauto.
  - intros (t & -> & ->). done.
Qed.

Lemma GetAllANVs_scan_elem iter r :
  r ∈ GetAllANVs_scan iter ↔
  ∃ a t, (K_ANV a, V_anv t) ∈ iter ∧ r = to_AddressANV t.
Proof.
  induction iter as [|[k v] rest IH].
  { split; [intros H; by apply elem_of_nil in H|].
    intros (a & t & H & _). by apply elem_of_nil in H. }
  assert (Hskip : r ∈ GetAllANVs_scan rest ↔
                  ∃ a t, (K_ANV a, V_anv t) ∈ rest ∧ r = to_AddressANV t)
    by exact IH.
  assert (Hlater : (∀ a t, (k, v) ≠ (K_ANV a, V_anv t)) →
            (∃ a t, (K_ANV a, V_anv t) ∈ (k, v) :: rest ∧ r = to_AddressANV t)
            ↔ ∃ a t, (K_ANV a, V_anv t) ∈ rest ∧ r = to_AddressANV t).
  { intros Hne. split; intros (a & t & Hin & Hr); exists a, t; split; try done.
    - apply elem_of_cons in Hin as [Heq|Hin]; [|done].
      by destruct (Hne a t).
    - by right. }
  destruct k as [x|h|x|x| |pos]; simpl;
    try (rewrite Hskip; symmetry; apply Hlater; intros a t; congruence).
  destruct v as [l|r0|x0|[[ty origin] amount]|n0|lv]; simpl;
    try (rewrite Hskip; symmetry; apply Hlater; intros a t; congruence).
  rewrite elem_of_cons, Hskip. split.
  - intros [->|(a & t & Hin & ->)].
    + exists x, (ty, origin, amount). split; [by left|done].
    + exists a, t. split; [by right|done].
  - intros (a & t & Hin & ->). apply elem_of_cons in Hin as [[= -> ->]|Hin].
    + by left.
    + right. eauto.
Qed.

(** X13: the scans list the stored records, all of them and nothing
    else.  A record is in [GetAllANVs] exactly when [GetANV] returns it
    for some address, and in [GetAllRewardableANVs] exactly when, in
    addition, its address type is 1 or 2. *)
Theorem GetAllANVs_lists_stored_records (db : CDBWrapper) (r : AddressANV) :
  (r ∈ GetAllANVs db ↔ ∃ a, GetANV db a = Some r) ∧
  (r ∈ GetAllRewardableANVs db ↔ (∃ a, GetANV db a = Some r) ∧ rewardable r).
Proof.
  assert (Hall : r ∈ GetAllANVs db ↔ ∃ a, GetANV db a = Some r).
  { unfold GetAllANVs, NewIterator. rewrite GetAllANVs_scan_elem. split.
    - intros (a & t & Hin & ->). exists a. apply GetANV_Some.
      exists t. split; [|done]. by apply elem_of_map_to_list.
    - intros (a & Ha). apply GetANV_Some in Ha as (t & Ht & ->).
      exists a, t. split; [|done]. by apply elem_of_map_to_list. }
  split; [done|].
  unfold GetAllRewardableANVs. rewrite GetAllRewardableANVs_scan_filter.
  fold (GetAllANVs db). rewrite list_elem_of_filter, Hall. tauto.
Qed.

(** ** Lottery: admission stub, capacity and failure *)

(** X14: [AddAddressToLottery] never writes.  Whenever it returns, the
    store is the one it was given, and the result tells whether the
    address has an ANV record. *)
Theorem AddAddressToLottery_never_writes flog (rand_value : uint256)
    (a : Address) (db db' : CDBWrapper) (b : bool) :
  AddAddressToLottery flog rand_value a db = Done b db' →
  db' = db ∧ (b = true ↔ is_Some (GetANV db a)).
Proof.
  unfold AddAddressToLottery, bind, gets, ret, assert, abort. cbv beta.
  destruct (GetANV db a) as [r|].
  - destruct (Qle_bool _ 0); [|discriminate].
    intros [= <- <-]. split; [done|]. split; eauto.
  - intros [= <- <-]. split; [done|]. split; [discriminate|].
    intros [? ?]. discriminate.
Qed.

Lemma AddAddressToLottery_never_writes_witness :
  let db : CDBWrapper := <[K_ANV 3 := V_anv (1, 3, 100%Z)]> ∅ in
  db = db ∧ (false = true ↔ is_Some (GetANV db 4)).
Proof.
  intros db.
  apply (AddAddressToLottery_never_writes (λ u, inject_Z (Z.of_N u)) 5 4 db db
           false).
  vm_compute. reflexivity.
Defined.

(** X15: at capacity nothing is inserted.  With 1000 or more entries
    counted, [InsertLotteryAddress] returns [false] and leaves the store
    as it is, whatever the key. *)
Theorem InsertLotteryAddress_full io (key : WeightedKey) (a : Address)
    (db : CDBWrapper) :
  MAX_RESERVOIR_SIZE ≤ GetLotteryHeapSize db →
  InsertLotteryAddress io key a db = Done false db.
Proof.
  intros Hfull. unfold InsertLotteryAddress, bind, gets, ret. cbv beta.
  destruct (N.leb_spec MAX_RESERVOIR_SIZE (GetLotteryHeapSize db)); [done|lia].
Qed.

Lemma InsertLotteryAddress_full_witness :
  InsertLotteryAddress io_always (0 # 1)%Q 7 (<[K_LOT_SIZE := V_size 1000]> ∅)
  = Done false (<[K_LOT_SIZE := V_size 1000]> ∅).
Proof.
  apply (InsertLotteryAddress_full io_always (0 # 1)%Q 7).
  vm_compute. discriminate.
Defined.

(** X16: the size counter is raised before the entry is placed and is not
    taken back.  When the counter says [n] entries, with [0 < n < 1000],
    but the slot the sift loop reads first is missing, the call returns
    [false] with the counter at [n + 1] and nothing else changed. *)
Theorem InsertLotteryAddress_missing_slot io (key : WeightedKey) (a : Address)
    (db : CDBWrapper) :
  let n := GetLotteryHeapSize db in
  0 < n < MAX_RESERVOIR_SIZE →
  GetLotterySlot db (parent_pos n) = None →
  io db K_LOT_SIZE = true →
  InsertLotteryAddress io key a db
  = Done false (<[K_LOT_SIZE := V_size (n + 1)]> db).
Proof.
  intros n [Hpos Hcap] Hslot Hio.
  unfold InsertLotteryAddress, bind, gets, ret, m_db_Write. cbv beta.
  fold n. destruct (N.leb_spec MAX_RESERVOIR_SIZE n); [lia|].
  rewrite Hio, loop_pos_nat.
  destruct (Pos2Nat.is_succ 1000) as [m ->].
  rewrite loop_nat_S, InsertLotteryAddress_round_step by lia.
  replace (GetLotterySlot (<[K_LOT_SIZE := V_size (n + 1)]> db) (parent_pos n))
    with (GetLotterySlot db (parent_pos n))
    by (unfold GetLotterySlot; by map_reads).
  by rewrite Hslot.
Qed.

Lemma InsertLotteryAddress_missing_slot_witness :
  let db : CDBWrapper := <[K_LOT_SIZE := V_size 1]> ∅ in
  InsertLotteryAddress io_always (0 # 1)%Q 7 db
  = Done false (<[K_LOT_SIZE := V_size (GetLotteryHeapSize db + 1)]> db).
Proof.
  intros db. apply (InsertLotteryAddress_missing_slot io_always (0 # 1)%Q 7 db).
  - split; vm_compute; reflexivity.
  - reflexivity.
  - reflexivity.
Defined.

Lemma InsertLotteryAddress_loop_frame io key n :
  ∀ pos db r db',
    loop_nat n (InsertLotteryAddress_round io key) pos db = Done r db' →
    ∀ k, (∀ p, k ≠ K_LOT_VAL p) → db' !! k = db !! k.
Proof.
  induction n as [|n IH]; intros pos db r db' H k Hk;
    [by injection H as <- <-|].
  rewrite loop_nat_S in H.
  destruct (decide (pos = 0)) as [->|Hpos].
  { rewrite InsertLotteryAddress_round_root in H. by injection H as <- <-. }
  rewrite InsertLotteryAddress_round_step in H by done.
  destruct (GetLotterySlot db (parent_pos pos)) as [pv|];
    [|by injection H as <- <-].
  destruct (key_gt key pv.1); [by injection H as <- <-|].
  destruct (io db (K_LOT_VAL pos)); [|by injection H as <- <-].
  rewrite (IH _ _ _ _ H k Hk). by rewrite lookup_insert_ne.
Qed.

(** X17: whatever [InsertLotteryAddress] returns, it has written the size
    counter and heap slots only: referral records, parent index,
    children lists and ANV records are as before. *)
Theorem InsertLotteryAddress_frame io (key : WeightedKey) (a : Address)
    (db db' : CDBWrapper) (b : bool) :
  InsertLotteryAddress io key a db = Done b db' →
  (∀ k, k ≠ K_LOT_SIZE → (∀ p, k ≠ K_LOT_VAL p) → db' !! k = db !! k) ∧
  (∀ h, GetReferral db' h = GetReferral db h) ∧
  (∀ x, GetReferrer db' x = GetReferrer db x) ∧
  (∀ x, GetChildren db' x = GetChildren db x) ∧
  (∀ x, GetANV db' x = GetANV db x).
Proof.
  intros H.
  assert (Hframe : ∀ k, k ≠ K_LOT_SIZE → (∀ p, k ≠ K_LOT_VAL p) →
                        db' !! k = db !! k).
  { revert H. unfold InsertLotteryAddress, bind, gets, ret, m_db_Write.
    cbv beta.
    destruct (MAX_RESERVOIR_SIZE <=? _); [by intros [= <- <-]|].
    destruct (io db K_LOT_SIZE); [|by intros [= <- <-]].
    rewrite loop_pos_nat. generalize (Pos.to_nat 1000). intros n.
    destruct (loop_nat _ _ _ _) as [[s|[q|b0]] db1|why] eqn:Hloop;
      try discriminate.
    all: pose proof (InsertLotteryAddress_loop_frame _ _ _ _ _ _ _ Hloop)
           as Hloop_frame.
    - intros [= <- <-] k Hsize Hslot.
      by rewrite Hloop_frame, lookup_insert_ne.
    - destruct (io db1 (K_LOT_VAL q)); intros [= <- <-] k Hsize Hslot.
      + by rewrite lookup_insert_ne, Hloop_frame, lookup_insert_ne.
      + by rewrite Hloop_frame, lookup_insert_ne.
    - intros [= <- <-] k Hsize Hslot.
      by rewrite Hloop_frame, lookup_insert_ne. }
  split; [done|]. unfold_reads.
  repeat split; intros; by rewrite Hframe.
Qed.

Lemma InsertLotteryAddress_frame_witness :
  let db' : CDBWrapper :=
    <[K_LOT_VAL 0 := V_lot ((-1 # 1)%Q, 11)]>
      (<[K_LOT_SIZE := V_size 1]> example_db_anv) in
  (∀ k, k ≠ K_LOT_SIZE → (∀ p, k ≠ K_LOT_VAL p) →
        db' !! k = example_db_anv !! k) ∧
  (∀ h, GetReferral db' h = GetReferral example_db_anv h) ∧
  (∀ x, GetReferrer db' x = GetReferrer example_db_anv x) ∧
  (∀ x, GetChildren db' x = GetChildren example_db_anv x) ∧
  (∀ x, GetANV db' x = GetANV example_db_anv x).
Proof.
  intros db'.
  apply (InsertLotteryAddress_frame io_always (-1 # 1)%Q 11 example_db_anv db'
           true).
  vm_compute. reflexivity.
Defined.

(** ** Lottery heap: what the insertions keep *)

(** Where a successful insertion leaves the entries, along the positions
    [climb n 0 > climb n 1 > ... > climb n k] the sift loop went
    through. *)
Lemma InsertLotteryAddress_placed io key a db db' :
  InsertLotteryAddress io key a db = Done true db' →
  let n := GetLotteryHeapSize db in
  n < MAX_RESERVOIR_SIZE ∧
  GetLotteryHeapSize db' = n + 1 ∧
  ∃ k : nat,
    (∀ i, (i < k)%nat →
          climb n i ≠ 0 ∧
          ∃ pv, GetLotterySlot db (climb n (S i)) = Some pv ∧
                (key <= pv.1)%Q ∧
                GetLotterySlot db' (climb n i) = Some pv) ∧
    (climb n k = 0 ∨
     ∃ pv, GetLotterySlot db (parent_pos (climb n k)) = Some pv ∧
           (pv.1 < key)%Q) ∧
    GetLotterySlot db' (climb n k) = Some (key, a) ∧
    (∀ pos, (∀ i, (i ≤ k)%nat → pos ≠ climb n i) →
            GetLotterySlot db' pos = GetLotterySlot db pos).
Proof.
  intros H. apply InsertLotteryAddress_true_inv in H.
  destruct H as (Hcap & m & q & db1 & Hloop & ->).
  apply InsertLotteryAddress_loop_sifts in Hloop
    as (k & -> & Hmoved & Hstop & Hother).
  set (n := GetLotteryHeapSize db) in *. simpl.
  assert (Hslot : ∀ pos, GetLotterySlot
                           (<[K_LOT_SIZE := V_size (n + 1)]> db) pos
                         = GetLotterySlot db pos).
  { intros pos. unfold GetLotterySlot. by map_reads. }
  assert (Hstrict : ∀ i, (i < k)%nat → climb n k < climb n i).
  { apply climb_strict. intros i Hi. by destruct (Hmoved i Hi). }
  split; [done|]. split.
  { unfold GetLotteryHeapSize, m_db_Read_size.
    rewrite lookup_insert_ne by done. rewrite Hother by done.
    by rewrite lookup_insert_eq. }
  exists k. split; [|split; [|split]].
  - intros i Hi. destruct (Hmoved i Hi) as (Hnz & pv & Hread & Hle & Hwritten).
    split; [done|]. exists pv. rewrite <- Hslot. split; [done|]. split; [done|].
    unfold GetLotterySlot, m_db_Read_lot. rewrite lookup_insert_ne.
    + by rewrite Hwritten.
    + intros [= Heq]. specialize (Hstrict i Hi). lia.
  - destruct Hstop as [?|(pv & Hread & Hlt)]; [by left|].
    right. exists pv. by rewrite <- Hslot.
  - unfold GetLotterySlot. by map_reads.
  - intros pos Hpos. rewrite <- Hslot. unfold GetLotterySlot, m_db_Read_lot.
    rewrite lookup_insert_ne.
    + rewrite Hother; [done|]. intros i Hi [= Heq]. apply (Hpos i); [lia|done].
    + intros [= Heq]. by apply (Hpos k).
Qed.

Lemma climb_on_path_dec n k pos :
  (∃ i, (i ≤ k)%nat ∧ pos = climb n i) ∨ (∀ i, (i ≤ k)%nat → pos ≠ climb n i).
Proof.
  induction k as [|k [(i & Hi & ->)|IH]].
  - destruct (decide (pos = climb n 0)) as [->|Hne].
    + left. exists O. split; [lia|done].
    + right. intros i Hi. by replace i with O by lia.
  - left. exists i. split; [lia|done].
  - destruct (decide (pos = climb n (S k))) as [->|Hne].
    + left. exists (S k). split; [lia|done].
    + right. intros i Hi. destruct (decide (i = S k)) as [->|?]; [done|].
      apply IH. lia.
Qed.

(** Along the positions before the root, the walk goes strictly down. *)
Lemma climb_decreasing n k :
  (∀ i, (i < k)%nat → climb n i ≠ 0) →
  ∀ i j, (i < j)%nat → (j ≤ k)%nat → climb n j < climb n i.
Proof.
  intros Hnz i j Hij Hjk. apply (climb_strict n j); [|done].
  intros t Ht. apply Hnz. lia.
Qed.

(** The root holds a smallest key of a filled, ordered heap. *)
Lemma sift_order_root_min db :
  heap_filled db → sift_order db →
  ∀ p v0 v, p < GetLotteryHeapSize db →
            GetLotterySlot db 0 = Some v0 → GetLotterySlot db p = Some v →
            (v0.1 <= v.1)%Q.
Proof.
  intros Hfilled Horder p. induction (N.lt_wf_0 p) as [p _ IH].
  intros v0 v Hp H0 Hv.
  destruct (decide (p = 0)) as [->|Hnz].
  { rewrite H0 in Hv. injection Hv as ->. apply Qle_refl. }
  pose proof (parent_pos_lt p Hnz) as Hlt.
  destruct (Hfilled (parent_pos p) ltac:(lia)) as [u Hu].
  eapply Qle_trans.
  - apply (IH (parent_pos p) Hlt v0 u); [lia|done..].
  - apply (Horder p u v); [lia|done..].
Qed.

(** A successful insertion into a filled heap in sift order gives a filled
    heap in sift order; it keeps every entry and adds the new one. *)
Lemma InsertLotteryAddress_keeps_order io key a db db' :
  InsertLotteryAddress io key a db = Done true db' →
  heap_filled db → sift_order db →
  heap_filled db' ∧ sift_order db' ∧
  (∀ e, in_heap db e → in_heap db' e) ∧ in_heap db' (key, a).
Proof.
  intros H Hfilled Horder.
  destruct (InsertLotteryAddress_placed _ _ _ _ _ H)
    as (Hcap & Hsize & k & Hmoved & Hstop & Hnew & Hother).
  unfold heap_filled, sift_order, in_heap in *. rewrite Hsize.
  set (n := GetLotteryHeapSize db) in *.
  assert (Hnz : ∀ i, (i < k)%nat → climb n i ≠ 0)
    by (intros i Hi; by destruct (Hmoved i Hi)).
  pose proof (climb_decreasing n k Hnz) as Hdec.
  assert (Hstart : climb n 0 = n) by reflexivity.
  assert (Hbelow : ∀ i, (0 < i)%nat → (i ≤ k)%nat → climb n i < n).
  { intros i Hi Hik. rewrite <- Hstart at 2. apply Hdec; lia. }
  assert (Hoffn : ∀ pos, pos < n + 1 →
                         (∀ i, (i ≤ k)%nat → pos ≠ climb n i) → pos < n).
  { intros pos Hpos Hoff. specialize (Hoff O ltac:(lia)).
    rewrite Hstart in Hoff. lia. }
  split; [|split; [|split]].
  - intros pos Hpos.
    destruct (climb_on_path_dec n k pos) as [(i & Hi & ->)|Hoff].
    + destruct (decide (i = k)) as [->|Hne]; [by rewrite Hnew|].
      destruct (Hmoved i ltac:(lia)) as (_ & pv & _ & _ & ->). eauto.
    + rewrite Hother by done. apply Hfilled. by apply Hoffn.
  - intros pos pv' v' [Hpos0 Hposn] Hpar Hval.
    destruct (climb_on_path_dec n k pos) as [(i & Hi & ->)|Hoff].
    + destruct (decide (i = k)) as [->|Hne].
      * rewrite Hnew in Hval. injection Hval as <-.
        destruct Hstop as [Hroot|(pv0 & Hread & Hlt)]; [lia|].
        rewrite Hother, Hread in Hpar.
        -- injection Hpar as <-. by apply Qlt_le_weak.
        -- intros j Hj.
           pose proof (parent_pos_lt (climb n k) ltac:(lia)) as Hlt'.
           destruct (decide (j = k)) as [->|?]; [lia|].
           specialize (Hdec j k ltac:(lia) ltac:(lia)). lia.
      * destruct (Hmoved i ltac:(lia)) as (_ & pv & Hold & Hle & Hwritten).
        rewrite Hwritten in Hval. injection Hval as <-.
        rewrite <- climb_S in Hpar.
        destruct (decide (S i = k)) as [<-|Hne'].
        -- rewrite Hnew in Hpar. by injection Hpar as <-.
        -- destruct (Hmoved (S i) ltac:(lia))
             as (Hnz' & pv2 & Hold2 & _ & Hwritten2).
           rewrite Hwritten2 in Hpar. injection Hpar as <-.
           apply (Horder (climb n (S i))); [|by rewrite <- climb_S|done].
           split; [lia|]. apply Hbelow; lia.
    + rewrite Hother in Hval by done.
      pose proof (Hoffn pos Hposn Hoff) as Hpos.
      pose proof (parent_pos_lt pos ltac:(lia)) as Hq.
      destruct (climb_on_path_dec n k (parent_pos pos))
        as [(j & Hj & Hqj)|Hqoff].
      * destruct j as [|j]; [rewrite Hstart in Hqj; lia|].
        destruct (Hmoved j ltac:(lia)) as (_ & pv & Hold & Hle & _).
        rewrite <- Hqj in Hold.
        destruct (decide (S j = k)) as [Hk|Hne].
        -- rewrite Hqj, Hk, Hnew in Hpar. injection Hpar as <-. simpl.
           eapply Qle_trans; [exact Hle|].
           apply (Horder pos); [lia|done..].
        -- destruct (Hmoved (S j) ltac:(lia))
             as (Hnz' & pv2 & Hold2 & _ & Hwritten2).
           rewrite Hqj, Hwritten2 in Hpar. injection Hpar as <-.
           eapply Qle_trans; [|apply (Horder pos); [lia|exact Hold|exact Hval]].
           rewrite Hqj in Hold.
           apply (Horder (climb n (S j))); [|by rewrite <- climb_S|done].
           split; [lia|]. apply Hbelow; lia.
      * rewrite Hother in Hpar by done.
        apply (Horder pos); [lia|done..].
  - intros e (pos & Hpos & He).
    destruct (climb_on_path_dec n k pos) as [(i & Hi & ->)|Hoff].
    + destruct i as [|i]; [rewrite Hstart in Hpos; lia|].
      destruct (Hmoved i ltac:(lia)) as (_ & pv & Hold & _ & Hwritten).
      rewrite He in Hold. injection Hold as <-.
      exists (climb n i). split; [|done]. pose proof (climb_le n i). lia.
    + exists pos. split; [lia|]. by rewrite Hother.
  - exists (climb n k). split; [|done]. pose proof (climb_le n k). lia.
Qed.

Lemma InsertLotteryAddress_seq_cons io key a rest db :
  InsertLotteryAddress_seq io ((key, a) :: rest) db =
  match InsertLotteryAddress io key a db with
  | Done true db' => InsertLotteryAddress_seq io rest db'
  | Done false db' => Done false db'
  | Fatal why => Fatal why
  end.
Proof.
  cbn [InsertLotteryAddress_seq]. unfold bind.
  by destruct (InsertLotteryAddress io key a db) as [[|] db'|why].
Qed.

Lemma InsertLotteryAddress_seq_keeps_order io entries :
  ∀ db db',
    InsertLotteryAddress_seq io entries db = Done true db' →
    heap_filled db → sift_order db →
    heap_filled db' ∧ sift_order db' ∧
    GetLotteryHeapSize db' = GetLotteryHeapSize db + N.of_nat (length entries) ∧
    (GetLotteryHeapSize db ≤ MAX_RESERVOIR_SIZE →
     GetLotteryHeapSize db' ≤ MAX_RESERVOIR_SIZE) ∧
    (∀ e, in_heap db e → in_heap db' e) ∧
    (∀ e, e ∈ entries → in_heap db' e).
Proof.
  induction entries as [|[key a] rest IH]; intros db db' H Hfilled Horder.
  { injection H as <-. repeat split; try done.
    - simpl. lia.
    - intros e He. by apply elem_of_nil in He. }
  rewrite InsertLotteryAddress_seq_cons in H.
  destruct (InsertLotteryAddress io key a db) as [[|] db1|why] eqn:Hone;
    try discriminate H.
  destruct (InsertLotteryAddress_placed _ _ _ _ _ Hone) as (Hcap & Hsize & _).
  destruct (InsertLotteryAddress_keeps_order _ _ _ _ _ Hone Hfilled Horder)
    as (Hfilled1 & Horder1 & Hkept1 & Hnew1).
  destruct (IH _ _ H Hfilled1 Horder1)
    as (Hfilled' & Horder' & Hsize' & Hcap' & Hkept' & Hrest').
  split; [done|]. split; [done|]. split; [|split; [|split]].
  - rewrite Hsize', Hsize. simpl length. lia.
  - intros _. apply Hcap'. rewrite Hsize. lia.
  - intros e He. by apply Hkept', Hkept1.
  - intros e He. apply elem_of_cons in He as [->|He]; [by apply Hkept'|].
    by apply Hrest'.
Qed.

Lemma GetLotteryHeapSize_empty : GetLotteryHeapSize ∅ = 0.
Proof. reflexivity. Qed.

Lemma heap_filled_empty : heap_filled ∅.
Proof. intros p Hp. rewrite GetLotteryHeapSize_empty in Hp. lia. Qed.

Lemma sift_order_empty : sift_order ∅.
Proof. intros p pv v Hp. rewrite GetLotteryHeapSize_empty in Hp. lia. Qed.

(** X18: the order the insertions keep is the one along the parent
    positions of the source, [pos >> 2].  A successful
    [InsertLotteryAddress] into a heap that is filled below its size and
    ordered that way leaves a heap that is filled and ordered that way;
    every entry that was in the heap is still in it, the new entry is in
    it, and position 0 holds a smallest key. *)
Theorem InsertLotteryAddress_keeps_sift_order io (key : WeightedKey)
    (a : Address) (db db' : CDBWrapper) :
  InsertLotteryAddress io key a db = Done true db' →
  heap_filled db → sift_order db →
  heap_filled db' ∧ sift_order db' ∧
  (∀ e, in_heap db e → in_heap db' e) ∧ in_heap db' (key, a) ∧
  ∃ v0, GetLotterySlot db' 0 = Some v0 ∧
        ∀ e, in_heap db' e → (v0.1 <= e.1)%Q.
Proof.
  intros H Hfilled Horder.
  destruct (InsertLotteryAddress_placed _ _ _ _ _ H) as (_ & Hsize & _).
  destruct (InsertLotteryAddress_keeps_order _ _ _ _ _ H Hfilled Horder)
    as (Hfilled' & Horder' & Hkept & Hnew).
  repeat (split; [done|]).
  destruct (Hfilled' 0 ltac:(lia)) as [v0 Hv0]. exists v0. split; [done|].
  intros e (p & Hp & He). by apply (sift_order_root_min db' Hfilled' Horder' p).
Qed.

Lemma InsertLotteryAddress_keeps_sift_order_witness :
  let db : CDBWrapper :=
    <[K_LOT_VAL 0 := V_lot ((-1 # 1)%Q, 11)]> (<[K_LOT_SIZE := V_size 1]> ∅) in
  let db' : CDBWrapper :=
    <[K_LOT_VAL 0 := V_lot ((-5 # 1)%Q, 12)]>
      (<[K_LOT_VAL 1 := V_lot ((-1 # 1)%Q, 11)]>
         (<[K_LOT_SIZE := V_size 2]> db)) in
  heap_filled db' ∧ sift_order db' ∧
  (∀ e, in_heap db e → in_heap db' e) ∧ in_heap db' ((-5 # 1)%Q, 12) ∧
  ∃ v0, GetLotterySlot db' 0 = Some v0 ∧
        ∀ e, in_heap db' e → (v0.1 <= e.1)%Q.
Proof.
  intros db db'.
  assert (Hsize : GetLotteryHeapSize db = 1) by reflexivity.
  apply (InsertLotteryAddress_keeps_sift_order io_always (-5 # 1)%Q 12 db db').
  - vm_compute. reflexivity.
  - intros p Hp. rewrite Hsize in Hp. replace p with 0 by lia.
    by eexists.
  - intros p pv v Hp. rewrite Hsize in Hp. lia.
Defined.

(** X19: insertions into the empty store.  When a sequence of
    [InsertLotteryAddress] calls on the empty store returns [true]
    throughout, the size counter is the number of calls and at most 1000,
    every inserted entry is in the heap, and position 0 holds a smallest
    key of the heap. *)
Theorem InsertLotteryAddress_seq_from_empty io
    (entries : list LotteryHeapValue) (db : CDBWrapper) :
  InsertLotteryAddress_seq io entries ∅ = Done true db →
  GetLotteryHeapSize db = N.of_nat (length entries) ∧
  GetLotteryHeapSize db ≤ MAX_RESERVOIR_SIZE ∧
  (∀ e, e ∈ entries → in_heap db e) ∧
  (∀ e, in_heap db e →
        ∃ v0, GetLotterySlot db 0 = Some v0 ∧ (v0.1 <= e.1)%Q).
Proof.
  intros H.
  destruct (InsertLotteryAddress_seq_keeps_order _ _ _ _ H
              heap_filled_empty sift_order_empty)
    as (Hfilled & Horder & Hsize & Hcap & _ & Hin).
  rewrite GetLotteryHeapSize_empty in Hsize, Hcap.
  split; [by rewrite Hsize|]. split; [by apply Hcap|]. split; [done|].
  intros e (p & Hp & He).
  destruct (Hfilled 0 ltac:(lia)) as [v0 Hv0]. exists v0. split; [done|].
  by apply (sift_order_root_min db Hfilled Horder p).
Qed.

Lemma InsertLotteryAddress_seq_from_empty_witness :
  let entries : list LotteryHeapValue :=
    [((-5 # 1)%Q, 11); ((-1 # 1)%Q, 12); ((-4 # 1)%Q, 13); ((-3 # 1)%Q, 14)] in
  let db : CDBWrapper :=
    <[K_LOT_SIZE := V_size 4]>
      (<[K_LOT_VAL 0 := V_lot ((-5 # 1)%Q, 11)]>
         (<[K_LOT_VAL 1 := V_lot ((-1 # 1)%Q, 12)]>
            (<[K_LOT_VAL 2 := V_lot ((-4 # 1)%Q, 13)]>
               (<[K_LOT_VAL 3 := V_lot ((-3 # 1)%Q, 14)]> ∅)))) in
  GetLotteryHeapSize db = N.of_nat (length entries) ∧
  GetLotteryHeapSize db ≤ MAX_RESERVOIR_SIZE ∧
  (∀ e, e ∈ entries → in_heap db e) ∧
  (∀ e, in_heap db e →
        ∃ v0, GetLotterySlot db 0 = Some v0 ∧ (v0.1 <= e.1)%Q).
Proof.
  intros entries db.
  apply (InsertLotteryAddress_seq_from_empty io_always entries db).
  vm_compute. reflexivity.
Defined.

(** ** More on removal and on the order of calls *)

(** X20: [RemoveReferral] does not ask whether the referral is stored.
    For a referral whose code hash names no referral, whose address has
    no parent entry and is not in the children list of the parent address
    it resolves, a call that returns [true] changes the result of no
    [GetReferral], [GetReferrer] or [GetChildren]; with an engine that
    carries out every operation the call does return [true]. *)
Theorem RemoveReferral_of_absent_referral io (r : Referral) (db : CDBWrapper) :
  GetReferral db (codeHash r) = None →
  GetReferrer db (pubKeyId r) = None →
  pubKeyId r ∉ GetChildren db (parent_address_of db r) →
  (∀ db' , RemoveReferral io r db = Done true db' →
     (∀ h, GetReferral db' h = GetReferral db h) ∧
     (∀ x, GetReferrer db' x = GetReferrer db x) ∧
     (∀ x, GetChildren db' x = GetChildren db x)) ∧
  ((∀ db k, io db k = true) → ∃ db', RemoveReferral io r db = Done true db').
Proof.
  intros Hcode Hparent Hchild. split.
  - intros db' H. apply RemoveReferral_success in H. simpl in H.
    assert (Hsame : ∀ h, GetReferral (delete (K_REFERRALS (codeHash r)) db) h
                         = GetReferral db h).
    { intros h. destruct (decide (h = codeHash r)) as [->|Hne].
      - rewrite Hcode. by map_reads.
      - by map_reads. }
    assert (Hpa : parent_address_of (delete (K_REFERRALS (codeHash r)) db) r
                  = parent_address_of db r).
    { unfold parent_address_of. by rewrite Hsame. }
    rewrite Hpa in H.
    assert (Hf : filter (λ c, c ≠ pubKeyId r)
                   (GetChildren db (parent_address_of db r))
                 = GetChildren db (parent_address_of db r))
      by (apply filter_all; intros c Hc ->; done).
    rewrite Hf in H.
    split; [|split].
    + intros h. rewrite <- Hsame, H. by map_reads.
    + intros x. rewrite H. destruct (decide (x = pubKeyId r)) as [->|Hne].
      * rewrite Hparent. by map_reads.
      * by map_reads.
    + intros x. rewrite H.
      destruct (decide (x = parent_address_of db r)) as [->|Hne];
        by map_reads.
  - intros Hio. unfold RemoveReferral, bind, gets, ret, m_db_Write, m_db_Erase.
    cbv beta. rewrite !Hio. eauto.
Qed.

Lemma RemoveReferral_of_absent_referral_witness :
  (∀ db' , RemoveReferral io_always example_child example_db_root = Done true db' →
     (∀ h, GetReferral db' h = GetReferral example_db_root h) ∧
     (∀ x, GetReferrer db' x = GetReferrer example_db_root x) ∧
     (∀ x, GetChildren db' x = GetChildren example_db_root x)) ∧
  ((∀ db k, io_always db k = true) →
   ∃ db', RemoveReferral io_always example_child example_db_root = Done true db').
Proof.
  apply (RemoveReferral_of_absent_referral io_always example_child
           example_db_root).
  - reflexivity.
  - reflexivity.
  - vm_compute. apply not_elem_of_nil.
Defined.

Lemma anv_record_lookup db x t :
  db !! K_ANV x = Some (V_anv t) → anv_record db x = t.
Proof. intros H. unfold anv_record, m_db_Read_anv. by rewrite H. Qed.

Lemma anv_record_same db1 db2 x :
  db2 !! K_ANV x = db1 !! K_ANV x → anv_record db2 x = anv_record db1 x.
Proof. intros H. unfold anv_record, m_db_Read_anv. by rewrite H. Qed.

(** Every entry of the store after a successful call. *)
Lemma UpdateANV_true_lookup io ty a v xs db db' :
  referrer_chain db a xs →
  UpdateANV io ty a v db = Done true db' →
  ∀ k, db' !! k = entry_after_UpdateANV ty a v xs db k.
Proof.
  intros Hchain H. apply UpdateANV_true_inv in H as (n & a' & l' & Hloop & Hl').
  destruct (UpdateANV_loop_success _ _ _ _ _ _ _ _ _ _ _ _ Hchain Hloop Hl')
    as (Hother & Hhead & Htail).
  intros k. unfold entry_after_UpdateANV.
  destruct k as [x|h|x|x| |pos];
    try (apply Hother; intros y _; discriminate).
  destruct (decide (x = a)) as [->|Hne]; [by rewrite Hhead|].
  destruct (decide (x ∈ xs)) as [Hin|Hout]; [by rewrite (Htail x Hin)|].
  apply Hother. intros y Hy [= ->]. apply elem_of_cons in Hy as [?|?]; done.
Qed.

(** X21: calls at different start addresses commute.  When [UpdateANV] at
    [a] and then at [b] both return [true], and so do the same two calls
    in the other order, the two resulting stores are equal: the same
    amounts, and the same types and origins, also at addresses both
    chains go through. *)
Theorem UpdateANV_calls_commute io (ta tb : N) (a b : Address)
    (v w : CAmount) (xs ys : list Address) (db dba dbab dbb dbba : CDBWrapper) :
  a ≠ b →
  referrer_chain db a xs →
  referrer_chain db b ys →
  UpdateANV io ta a v db = Done true dba →
  UpdateANV io tb b w dba = Done true dbab →
  UpdateANV io tb b w db = Done true dbb →
  UpdateANV io ta a v dbb = Done true dbba →
  dbab = dbba.
Proof.
  intros Hab Hxs Hys Ha Hab2 Hb Hba2.
  destruct (UpdateANV_true_amounts _ _ _ _ _ _ _ Hxs Ha) as [Hpa _].
  destruct (UpdateANV_true_amounts _ _ _ _ _ _ _ Hys Hb) as [Hpb _].
  assert (Hys' : referrer_chain dba b ys) by (by eapply referrer_chain_ext).
  assert (Hxs' : referrer_chain dbb a xs) by (by eapply referrer_chain_ext).
  pose proof (UpdateANV_true_lookup _ _ _ _ _ _ _ Hxs Ha) as La.
  pose proof (UpdateANV_true_lookup _ _ _ _ _ _ _ Hys' Hab2) as Lab.
  pose proof (UpdateANV_true_lookup _ _ _ _ _ _ _ Hys Hb) as Lb.
  pose proof (UpdateANV_true_lookup _ _ _ _ _ _ _ Hxs' Hba2) as Lba.
  apply map_eq. intros k. rewrite Lab, Lba.
  destruct k as [x|h|x|x| |pos]; simpl; try (by rewrite La, Lb).
  pose proof (La (K_ANV x)) as Lax. pose proof (Lb (K_ANV x)) as Lbx.
  simpl in Lax, Lbx. unfold stored_amount in *. revert Lax Lbx.
  destruct (decide (x = a)) as [Hxa|Hxa], (decide (x = b)) as [Hxb|Hxb];
    [congruence| | |].
  - destruct (decide (x ∈ ys)); intros Lax Lbx.
    + rewrite (anv_record_lookup _ _ _ Lax), (anv_record_lookup _ _ _ Lbx).
      simpl. do 3 f_equal. lia.
    + by rewrite Lax, (anv_record_same _ _ _ Lbx).
  - destruct (decide (x ∈ xs)); intros Lax Lbx.
    + rewrite (anv_record_lookup _ _ _ Lax), (anv_record_lookup _ _ _ Lbx).
      simpl. do 3 f_equal. lia.
    + by rewrite Lbx, (anv_record_same _ _ _ Lax).
  - destruct (decide (x ∈ xs)), (decide (x ∈ ys)); intros Lax Lbx.
    + rewrite (anv_record_lookup _ _ _ Lax), (anv_record_lookup _ _ _ Lbx).
      simpl. do 3 f_equal. lia.
    + by rewrite Lax, (anv_record_same _ _ _ Lbx).
    + by rewrite Lbx, (anv_record_same _ _ _ Lax).
    + by rewrite Lax, Lbx.
Qed.

Lemma UpdateANV_calls_commute_witness :
  <[K_ANV 0 := V_anv (0, 0, 130%Z)]>
    (<[K_ANV 1 := V_anv (2, 1, 130%Z)]>
       (<[K_ANV 2 := V_anv (1, 2, 100%Z)]> example_db_child))
  =
  <[K_ANV 2 := V_anv (1, 2, 100%Z)]>
    (<[K_ANV 0 := V_anv (0, 0, 130%Z)]>
       (<[K_ANV 1 := V_anv (2, 1, 130%Z)]> example_db_child)).
Proof.
  apply (UpdateANV_calls_commute io_always 1 2 2 1 100%Z 30%Z [1; 0] [0]
           example_db_child
           example_db_anv
           _
           (<[K_ANV 0 := V_anv (0, 0, 30%Z)]>
              (<[K_ANV 1 := V_anv (2, 1, 30%Z)]> example_db_child))
           _).
  - done.
  - exact example_chain.
  - apply chain_step; [reflexivity|]. apply chain_root. reflexivity.
  - vm_compute. reflexivity.
  - vm_compute. reflexivity.
  - vm_compute. reflexivity.
  - vm_compute. reflexivity.
Defined.
